(** * Transaction coordinator of dev/src/transaction.ts

    A shallow embedding of the [Transaction] class (read gate, session
    life cycle, retry loop) and of [parseGetAllArguments], followed by the
    properties of the specification that were checked against it.

    Conventions of the embedding.
    - A JavaScript value is a [JsValue]; an error object is a [JsError]
      with a message and an optional [code] property.
    - The mutable [Transaction] object and the calls that leave it (RPCs,
      backoff, the user callback) are threaded through a [World]: the object
      plus the chronological [trace] of calls issued so far.
    - The remote side is an [Env]: each RPC answers as a function of the
      trace up to and including its own request.
    - A synchronous [throw] is a [Throw] completion; a promise is modelled
      by the way it settles ([Fulfilled] or [Rejected]).  [await] turns a
      rejection into a throw of the enclosing async function.
    - [logger] calls write to the log only and are left out. *)

From Stdlib Require Import ZArith List String Ascii Bool Lia.
Import ListNotations.
Local Open Scope string_scope.
Local Open Scope Z_scope.
Set Warnings "-register-all".

(** ** Values and errors *)

(** [Status] of google-gax: the gRPC status codes. *)
Inductive Status : Type :=
| OK | CANCELLED | UNKNOWN | INVALID_ARGUMENT | DEADLINE_EXCEEDED
| NOT_FOUND | ALREADY_EXISTS | PERMISSION_DENIED | RESOURCE_EXHAUSTED
| FAILED_PRECONDITION | ABORTED | OUT_OF_RANGE | UNIMPLEMENTED
| INTERNAL | UNAVAILABLE | DATA_LOSS | UNAUTHENTICATED.

Definition Status_eq_dec (a b : Status) : {a = b} + {a <> b}.
Proof. decide equality. Defined.

(** An error object.  [code = None] stands for [error.code === undefined],
    which is what [new Error(msg)] gives. *)
Record JsError : Type := mkError {
  message : string;
  code : option Status
}.

Definition new_Error (msg : string) : JsError :=
  {| message := msg; code := None |}.

Definition Uint8Array : Type := list Byte.byte.

(** A field path, written [FieldPath("a", "b")] in the sources. *)
Inductive FieldPath : Type :=
| FieldPath_ (segments : list string).

Inductive JsValue : Type :=
| VUndefined
| VNull
| VBoolean (b : bool)
| VNumber (n : Z)
| VString (s : string)
| VArray (items : list JsValue)
| VObject (fields : list (string * JsValue))   (* a plain object literal *)
| VDocumentReference (path : string)
| VQuery (collection : string)
| VFieldPath (p : FieldPath)
| VInstance (className : string).               (* any other class instance *)

(** Property read [o.k] on a plain object; absent keys read [undefined]. *)
Fixpoint lookup_field (k : string) (fields : list (string * JsValue)) : JsValue :=
  match fields with
  | [] => VUndefined
  | (k', v) :: rest => if String.eqb k k' then v else lookup_field k rest
  end.

Definition get_property (o : JsValue) (k : string) : JsValue :=
  match o with
  | VObject fields => lookup_field k fields
  | _ => VUndefined
  end.

Definition Array_isArray (v : JsValue) : bool :=
  match v with VArray _ => true | _ => false end.

Definition instanceof_DocumentReference (v : JsValue) : bool :=
  match v with VDocumentReference _ => true | _ => false end.

Definition instanceof_Query (v : JsValue) : bool :=
  match v with VQuery _ => true | _ => false end.

(** Completion of a synchronous call: a value or a thrown error. *)
Inductive Completion (A : Type) : Type :=
| Normal (a : A)
| Throw (e : JsError).
Arguments Normal {A} a.
Arguments Throw {A} e.

(** A promise, by the way it settles. *)
Inductive Promise (A : Type) : Type :=
| Fulfilled (a : A)
| Rejected (e : JsError).
Arguments Fulfilled {A} a.
Arguments Rejected {A} e.

Definition Promise_then {A B : Type} (p : Promise A) (f : A -> B) : Promise B :=
  match p with
  | Fulfilled a => Fulfilled (f a)
  | Rejected e => Rejected e
  end.

(** The double quote character, for messages that quote an argument name. *)
Definition dq : string := String (ascii_of_nat 34) EmptyString.

(** ** Helpers imported by transaction.ts *)

(** Modelled from the spec: util.ts is absent.  [isPlainObject] tells "a
    plain options object (not a document reference)" from the other
    arguments; [isObject] holds of every object that is not an array. *)
Definition isPlainObject (v : JsValue) : bool :=
  match v with VObject _ => true | _ => false end.

Definition isObject (v : JsValue) : bool :=
  match v with
  | VObject _ | VDocumentReference _ | VQuery _ | VFieldPath _ | VInstance _ => true
  | _ => false
  end.

(** The first parameter of the validators: an argument name or a position. *)
Inductive ArgName : Type :=
| ArgNamed (name : string)
| ArgIndex (i : nat).

Definition string_of_digit (d : nat) : string :=
  String (ascii_of_nat (48 + d)) EmptyString.

Fixpoint string_of_nat_fuel (fuel n : nat) : string :=
  match fuel with
  | O => string_of_digit (Nat.modulo n 10)
  | S fuel' =>
      if Nat.ltb n 10 then string_of_digit n
      else (string_of_nat_fuel fuel' (Nat.div n 10)
              ++ string_of_digit (Nat.modulo n 10))%string
  end.

Definition string_of_nat (n : nat) : string := string_of_nat_fuel n n.

(** Modelled from the spec: validate.ts is absent.  The spec asks that an
    invalid document reference fails "including positional index"; the
    message names the argument or the position and the expected type. *)
Definition invalidArgumentMessage (arg : ArgName) (expectedType : string) : string :=
  match arg with
  | ArgNamed name =>
      "Value for argument " ++ dq ++ name ++ dq ++ " is not a valid "
        ++ expectedType ++ "."
  | ArgIndex i =>
      "Element at index " ++ string_of_nat i ++ " is not a valid "
        ++ expectedType ++ "."
  end.

(** Modelled from the spec: validate.ts is absent.  The call
    [validateMinNumberOfArguments(name, arguments, 1)] is the check behind
    "fails with InvalidArgument if fewer than one ... is supplied": it
    compares the number of arguments passed with the minimum. *)
Definition validateMinNumberOfArguments
  (funcName : string) (args : list JsValue) (minSize : nat) : Completion unit :=
  if Nat.ltb (List.length args) minSize
  then Throw (new_Error ("Function " ++ dq ++ funcName ++ "()" ++ dq
                           ++ " requires at least " ++ string_of_nat minSize
                           ++ " argument(s)."))
  else Normal tt.

(** Modelled from the spec: validate.ts is absent.  [validateOptional]
    answers whether an omitted ([undefined]) value is acceptable because the
    argument was declared optional. *)
Definition validateOptional (value : JsValue) (optional : bool) : bool :=
  match value with
  | VUndefined => optional
  | _ => false
  end.

(** Modelled from the spec: reference.ts is absent.  "Every remaining
    argument must be a valid document reference (fails with InvalidArgument,
    including positional index, otherwise)." *)
Definition validateDocumentReference (arg : ArgName) (value : JsValue)
  : Completion unit :=
  if instanceof_DocumentReference value then Normal tt
  else Throw (new_Error (invalidArgumentMessage arg "DocumentReference")).

(** Modelled from the spec: path.ts is absent.  "Each entry must be
    convertible to a field path (string or path-segment list)." *)
Definition validateFieldPath (arg : ArgName) (fieldPath : JsValue)
  : Completion unit :=
  match fieldPath with
  | VString _ | VFieldPath _ => Normal tt
  | _ => Throw (new_Error (invalidArgumentMessage arg "field path"
                             ++ " Paths can only be specified as strings or"
                             ++ " via a FieldPath object."))
  end.

(** Modelled from the spec: path.ts is absent.  The spec writes
    [FieldPath("x")] for the mask entry ["x"]; a [FieldPath] is taken as it
    is.  Entries are validated before they are converted, so the last case
    is not reached from [parseGetAllArguments]. *)
Definition FieldPath_fromArgument (fieldPath : JsValue) : FieldPath :=
  match fieldPath with
  | VFieldPath p => p
  | VString s => FieldPath_ [s]
  | _ => FieldPath_ []
  end.

(** ** parseGetAllArguments and validateReadOptions *)

Record GetAllArguments : Type := mkGetAllArguments {
  documents : list JsValue;
  fieldMask : option (list FieldPath)     (* [None] is [null] *)
}.

(** The loop [for (i = 0; i < a.length; ++i) validate(i, a[i])]: the first
    invalid element throws. *)
Fixpoint validate_each (validate : ArgName -> JsValue -> Completion unit)
  (i : nat) (a : list JsValue) : Completion unit :=
  match a with
  | [] => Normal tt
  | x :: rest =>
      match validate (ArgIndex i) x with
      | Throw e => Throw e
      | Normal _ => validate_each validate (S i) rest
      end
  end.

(** The inner loop of [validateReadOptions]: a failure of
    [validateFieldPath] is caught and thrown again under the read option's
    own message. *)
Fixpoint validate_fieldMask (arg : ArgName) (i : nat) (mask : list JsValue)
  : Completion unit :=
  match mask with
  | [] => Normal tt
  | x :: rest =>
      match validateFieldPath (ArgIndex i) x with
      | Throw err =>
          Throw (new_Error (invalidArgumentMessage arg "read option" ++ " "
                              ++ dq ++ "fieldMask" ++ dq ++ " is not valid: "
                              ++ message err))
      | Normal _ => validate_fieldMask arg (S i) rest
      end
  end.

Definition validateReadOptions (arg : ArgName) (value : JsValue) (optional : bool)
  : Completion unit :=
  if negb (validateOptional value optional) then
    if negb (isObject value) then
      Throw (new_Error (invalidArgumentMessage arg "read option"
                          ++ " Input is not an object.'"))
    else
      match get_property value "fieldMask" with
      | VUndefined => Normal tt
      | VArray mask => validate_fieldMask arg 0 mask
      | _ =>
          Throw (new_Error (invalidArgumentMessage arg "read option" ++ " "
                              ++ dq ++ "fieldMask" ++ dq ++ " is not an array."))
      end
  else Normal tt.

(** JavaScript truthiness, for [readOptions && readOptions.fieldMask]. *)
Definition truthy (v : JsValue) : bool :=
  match v with
  | VUndefined | VNull => false
  | VBoolean b => b
  | VNumber n => negb (n =? 0)
  | VString s => negb (String.eqb s EmptyString)
  | _ => true
  end.

Definition parseGetAllArguments (documentRefsOrReadOptions : list JsValue)
  : Completion GetAllArguments :=
  if Array_isArray (nth 0 documentRefsOrReadOptions VUndefined) then
    Throw (new_Error
      ("getAll() no longer accepts an array as its first argument. "
         ++ "Please unpack your array and call getAll() with individual arguments."))
  else
    (* [pop()] shortens the caller's array in place; [getAll] passes its
       own rest array and does not read it again. *)
    let '(documents, readOptions) :=
      if (Nat.ltb 0 (List.length documentRefsOrReadOptions)
          && isPlainObject (last documentRefsOrReadOptions VUndefined))%bool
      then (removelast documentRefsOrReadOptions,
            last documentRefsOrReadOptions VUndefined)
      else (documentRefsOrReadOptions, VUndefined) in
    match validate_each validateDocumentReference 0 documents with
    | Throw e => Throw e
    | Normal _ =>
        match validateReadOptions (ArgNamed "options") readOptions true with
        | Throw e => Throw e
        | Normal _ =>
            let fieldMask :=
              if (truthy readOptions
                  && truthy (get_property readOptions "fieldMask"))%bool
              then
                match get_property readOptions "fieldMask" with
                | VArray mask => Some (map FieldPath_fromArgument mask)
                | _ => None        (* excluded by [validateReadOptions] *)
                end
              else None in
            Normal {| documents := documents; fieldMask := fieldMask |}
        end
    end.

(** ** The transaction object and its surroundings *)

(** Modelled from the spec: update-builder.ts is absent.  The Pending Write
    Set is an "ordered sequence of write operations (create/set/update/
    delete)". *)
Inductive WriteOp : Type :=
| WCreate (documentRef : JsValue) (data : JsValue)
| WSet (documentRef : JsValue) (data : JsValue)
| WUpdate (documentRef : JsValue) (data : JsValue)
| WDelete (documentRef : JsValue).

Record Transaction : Type := mkTransaction {
  _requestTag : string;
  _transactionId : option Uint8Array;      (* [None] is [undefined] *)
  _ops : list WriteOp                      (* the inherited write buffer *)
}.

(** Calls that leave the transaction object, in the order they are made. *)
Inductive Event : Type :=
| EvResetToMax                                        (* _backoff.resetToMax() *)
| EvBackoffAndWait                                    (* _backoff.backoffAndWait() *)
| EvBeginTransaction (retryTransaction : option Uint8Array) (requestTag : string)
| EvCommit (transaction : option Uint8Array) (requestTag : string)
    (writes : list WriteOp)
| EvRollback (transaction : option Uint8Array) (requestTag : string)
| EvGetAll_ (docs : list JsValue) (mask : option (list FieldPath))
    (requestTag : string) (transaction : option Uint8Array)
| EvQueryGet (query : JsValue) (transaction : option Uint8Array)
| EvUpdateFunction (attempt : Z).                     (* updateFunction(this) *)

Record World : Type := mkWorld {
  this : Transaction;
  trace : list Event
}.

(** The remote side.  Each answer may depend on everything issued so far,
    the request itself included (it is the last element of the trace). *)
Record Env : Type := mkEnv {
  request_beginTransaction : list Event -> Promise Uint8Array;
  request_commit : list Event -> Promise unit;
  request_rollback : list Event -> Promise unit;
  firestore_getAll_ : list Event -> Promise (list JsValue);
  query_get : list Event -> Promise JsValue
}.

Definition emit (ev : Event) (w : World) : World :=
  {| this := this w; trace := trace w ++ [ev] |}.

Definition set_this (t : Transaction) (w : World) : World :=
  {| this := t; trace := trace w |}.

(** Modelled from the spec: update-builder.ts is absent.  The accumulator
    "reports whether any [writes] have been recorded". *)
Definition isEmpty (t : Transaction) : bool :=
  match _ops t with [] => true | _ :: _ => false end.

(** Modelled from the spec: update-builder.ts is absent.  A write method
    "buffers" its operation at the end of the Pending Write Set. *)
Definition record_write (op : WriteOp) (w : World) : World :=
  set_this {| _requestTag := _requestTag (this w);
              _transactionId := _transactionId (this w);
              _ops := _ops (this w) ++ [op] |} w.

(** Modelled from the spec: update-builder.ts is absent.  "reset(): clears
    the Pending Write Set ...; the transaction handle itself is
    preserved". *)
Definition _reset (w : World) : World :=
  set_this {| _requestTag := _requestTag (this w);
              _transactionId := _transactionId (this w);
              _ops := [] |} w.

Definition READ_AFTER_WRITE_ERROR_MSG : string :=
  "Firestore transactions require all reads to be executed before all writes.".

(** [Transaction.get]. *)
Definition get (env : Env) (refOrQuery : JsValue) (w : World)
  : Completion (Promise JsValue) * World :=
  if negb (isEmpty (this w)) then
    (Throw (new_Error READ_AFTER_WRITE_ERROR_MSG), w)
  else if instanceof_DocumentReference refOrQuery then
    let w1 := emit (EvGetAll_ [refOrQuery] None (_requestTag (this w))
                      (_transactionId (this w))) w in
    (Normal (Promise_then (firestore_getAll_ env (trace w1))
               (fun res => nth 0 res VUndefined)), w1)
  else if instanceof_Query refOrQuery then
    let w1 := emit (EvQueryGet refOrQuery (_transactionId (this w))) w in
    (Normal (query_get env (trace w1)), w1)
  else
    (Throw (new_Error ("Value for argument " ++ dq ++ "refOrQuery" ++ dq
                         ++ " must be a DocumentReference or a Query.")), w).

(** [Transaction.getAll]. *)
Definition getAll (env : Env) (documentRefsOrReadOptions : list JsValue) (w : World)
  : Completion (Promise (list JsValue)) * World :=
  if negb (isEmpty (this w)) then
    (Throw (new_Error READ_AFTER_WRITE_ERROR_MSG), w)
  else
    match validateMinNumberOfArguments "Transaction.getAll"
            documentRefsOrReadOptions 1 with
    | Throw e => (Throw e, w)
    | Normal _ =>
        match parseGetAllArguments documentRefsOrReadOptions with
        | Throw e => (Throw e, w)
        | Normal parsed =>
            let w1 := emit (EvGetAll_ (documents parsed) (fieldMask parsed)
                              (_requestTag (this w)) (_transactionId (this w))) w in
            (Normal (firestore_getAll_ env (trace w1)), w1)
        end
    end.

(** [Transaction.begin]: the previous handle, if any, goes out as the
    retry hint; the answer's handle replaces it. *)
Definition begin (env : Env) (w : World) : Promise unit * World :=
  let w1 := emit (EvBeginTransaction (_transactionId (this w))
                    (_requestTag (this w))) w in
  match request_beginTransaction env (trace w1) with
  | Fulfilled transaction =>
      (Fulfilled tt,
       set_this {| _requestTag := _requestTag (this w1);
                   _transactionId := Some transaction;
                   _ops := _ops (this w1) |} w1)
  | Rejected e => (Rejected e, w1)
  end.

(** [Transaction.commit].  Modelled from the spec: [commit_] of
    update-builder.ts is absent; it "issues a commit request carrying the
    transaction handle, the request tag, and the full Pending Write Set" and
    "propagates RPC failures unchanged". *)
Definition commit (env : Env) (w : World) : Promise unit * World :=
  let w1 := emit (EvCommit (_transactionId (this w)) (_requestTag (this w))
                    (_ops (this w))) w in
  (request_commit env (trace w1), w1).

(** [Transaction.rollback]. *)
Definition rollback (env : Env) (w : World) : Promise unit * World :=
  let w1 := emit (EvRollback (_transactionId (this w)) (_requestTag (this w))) w in
  (request_rollback env (trace w1), w1).

Definition code_is (s : Status) (e : JsError) : bool :=
  match code e with
  | Some c => if Status_eq_dec c s then true else false
  | None => false
  end.

(** [Transaction.maybeBackoff].  Modelled from the spec: backoff.ts is
    absent; the policy "exposes wait for next interval and reset to
    maximum", recorded here as the two calls. *)
Definition maybeBackoff (error : option JsError) (w : World) : Promise unit * World :=
  let w1 :=
    match error with
    | Some e => if code_is RESOURCE_EXHAUSTED e then emit EvResetToMax w else w
    | None => w
    end in
  (Fulfilled tt, emit EvBackoffAndWait w1).

(** [isRetryableTransactionError]. *)
Definition isRetryableTransactionError (error : JsError) : bool :=
  match code error with
  | Some c =>
      match c with
      | ABORTED | CANCELLED | UNKNOWN | DEADLINE_EXCEEDED
      | INTERNAL | UNAVAILABLE | UNAUTHENTICATED | RESOURCE_EXHAUSTED => true
      | _ => false
      end
  | None => false
  end.

(** ** The user callback *)

(** What [updateFunction(this)] hands back when it returns. *)
Inductive Returned : Type :=
| NotAPromise (v : JsValue)
| APromise (p : Promise JsValue).

(** A callback, as the calls it makes on the transaction it receives.  Each
    read hands its completion to the rest of the callback, which may catch a
    throw or let it through; the callback ends by returning or throwing. *)
Inductive Work : Type :=
| Ret (r : Returned)
| Raise (e : JsError)
| DoGet (refOrQuery : JsValue) (k : Completion (Promise JsValue) -> Work)
| DoGetAll (args : list JsValue) (k : Completion (Promise (list JsValue)) -> Work)
| DoWrite (op : WriteOp) (k : Work).

Fixpoint run_work (env : Env) (wk : Work) (w : World) : Completion Returned * World :=
  match wk with
  | Ret r => (Normal r, w)
  | Raise e => (Throw e, w)
  | DoGet refOrQuery k =>
      let '(c, w1) := get env refOrQuery w in run_work env (k c) w1
  | DoGetAll args k =>
      let '(c, w1) := getAll env args w in run_work env (k c) w1
  | DoWrite op k => run_work env k (record_write op w)
  end.

(** ** runTransaction *)

(** How the promise returned by [runTransaction] settles.  The rejection
    reason is [lastError], which may still be [undefined] ([None]). *)
Inductive Settlement : Type :=
| Resolves (result : JsValue)
| Rejects (reason : option JsError).

(** The [try] block of one attempt; a rejection is what [catch] receives.
    [updateFunction] is given by the number of the attempt, as a closure may
    behave differently from one invocation to the next. *)
Definition try_block (env : Env) (updateFunction : Z -> Work) (attempt : Z) (w : World)
  : Promise JsValue * World :=
  let '(promise, w1) :=
    run_work env (updateFunction attempt) (emit (EvUpdateFunction attempt) w) in
  match promise with
  | Throw e => (Rejected e, w1)
  | Normal (NotAPromise _) =>
      (Rejected (new_Error "You must return a Promise in your transaction()-callback."),
       w1)
  | Normal (APromise (Rejected e)) => (Rejected e, w1)
  | Normal (APromise (Fulfilled result)) =>
      match commit env w1 with
      | (Rejected e, w2) => (Rejected e, w2)
      | (Fulfilled _, w2) => (Fulfilled result, w2)
      end
  end.

(** One turn of the [for] loop: either the function returns, or the loop
    goes on with a new [lastError]. *)
Inductive Step : Type :=
| Done (s : Settlement)
| Next (lastError : JsError).

Definition attempt_body (env : Env) (updateFunction : Z -> Work)
  (attempt : Z) (lastError : option JsError) (w : World) : Step * World :=
  let w0 := _reset w in
  match maybeBackoff lastError w0 with
  | (Rejected e, w1) => (Done (Rejects (Some e)), w1)
  | (Fulfilled _, w1) =>
      match begin env w1 with
      | (Rejected e, w2) => (Done (Rejects (Some e)), w2)
      | (Fulfilled _, w2) =>
          match try_block env updateFunction attempt w2 with
          | (Fulfilled result, w3) => (Done (Resolves result), w3)
          | (Rejected err, w3) =>
              match rollback env w3 with
              | (Rejected e, w4) => (Done (Rejects (Some e)), w4)
              | (Fulfilled _, w4) =>
                  if isRetryableTransactionError err
                  then (Next err, w4)
                  else (Done (Rejects (Some err)), w4)
              end
          end
      end
  end.

(** The [for] loop, with the test [attempt < maxAttempts] as written and a
    bound on the number of turns to make the recursion structural. *)
Fixpoint attempts (fuel : nat) (env : Env) (updateFunction : Z -> Work)
  (maxAttempts attempt : Z) (lastError : option JsError) (w : World)
  : option (Settlement * World) :=
  match fuel with
  | O => None
  | S fuel' =>
      if attempt <? maxAttempts then
        match attempt_body env updateFunction attempt lastError w with
        | (Done s, w1) => Some (s, w1)
        | (Next err, w1) =>
            attempts fuel' env updateFunction maxAttempts (attempt + 1) (Some err) w1
        end
      else Some (Rejects lastError, w)
  end.

Definition runTransaction (env : Env) (updateFunction : Z -> Work)
  (maxAttempts : Z) (w : World) : option (Settlement * World) :=
  attempts (S (Z.to_nat maxAttempts)) env updateFunction maxAttempts 0 None w.

(** ** Observations on traces *)

Inductive RpcKind : Type := KBegin | KCommit | KRollback.

(** The life-cycle RPCs of a trace, in order. *)
Fixpoint rpc_kinds (tr : list Event) : list RpcKind :=
  match tr with
  | [] => []
  | EvBeginTransaction _ _ :: rest => KBegin :: rpc_kinds rest
  | EvCommit _ _ _ :: rest => KCommit :: rpc_kinds rest
  | EvRollback _ _ :: rest => KRollback :: rpc_kinds rest
  | _ :: rest => rpc_kinds rest
  end.

Inductive BackoffCall : Type := BResetToMax | BWait | BBegin.

(** The backoff calls of a trace and the begins they precede, in order. *)
Fixpoint backoff_calls (tr : list Event) : list BackoffCall :=
  match tr with
  | [] => []
  | EvResetToMax :: rest => BResetToMax :: backoff_calls rest
  | EvBackoffAndWait :: rest => BWait :: backoff_calls rest
  | EvBeginTransaction _ _ :: rest => BBegin :: backoff_calls rest
  | _ :: rest => backoff_calls rest
  end.

(** ** Sequences of operations on one attempt *)

Inductive Op : Type :=
| OpWrite (op : WriteOp)
| OpGet (refOrQuery : JsValue)
| OpGetAll (args : list JsValue).

Definition is_write (o : Op) : bool :=
  match o with OpWrite _ => true | _ => false end.

(** The caller may catch what a read throws and go on, so a sequence runs
    to its end whatever the single operations answer. *)
Definition exec_op (env : Env) (o : Op) (w : World) : World :=
  match o with
  | OpWrite op => record_write op w
  | OpGet refOrQuery => snd (get env refOrQuery w)
  | OpGetAll args => snd (getAll env args w)
  end.

Definition exec_ops (env : Env) (ops : list Op) (w : World) : World :=
  fold_left (fun w o => exec_op env o w) ops w.

(** ** Concrete surroundings used by the examples *)

Definition doc (path : string) : JsValue := VDocumentReference path.

Definition tx0 : Transaction :=
  {| _requestTag := "tag"; _transactionId := None; _ops := [] |}.

Definition w0 : World := {| this := tx0; trace := [] |}.

(** A server on which every RPC succeeds. *)
Definition env_ok : Env :=
  {| request_beginTransaction := fun _ => Fulfilled [Byte.x01];
     request_commit := fun _ => Fulfilled tt;
     request_rollback := fun _ => Fulfilled tt;
     firestore_getAll_ := fun _ => Fulfilled [];
     query_get := fun _ => Fulfilled VUndefined |}.

Definition rollback_error : JsError :=
  {| message := "rollback failed"; code := Some INTERNAL |}.

(** The same server, except that every rollback fails. *)
Definition env_rollback_fails : Env :=
  {| request_beginTransaction := fun _ => Fulfilled [Byte.x01];
     request_commit := fun _ => Fulfilled tt;
     request_rollback := fun _ => Rejected rollback_error;
     firestore_getAll_ := fun _ => Fulfilled [];
     query_get := fun _ => Fulfilled VUndefined |}.

Definition commit_error : JsError :=
  {| message := "commit refused"; code := Some FAILED_PRECONDITION |}.

(** The same server, except that every commit fails. *)
Definition env_commit_fails : Env :=
  {| request_beginTransaction := fun _ => Fulfilled [Byte.x01];
     request_commit := fun _ => Rejected commit_error;
     request_rollback := fun _ => Fulfilled tt;
     firestore_getAll_ := fun _ => Fulfilled [];
     query_get := fun _ => Fulfilled VUndefined |}.

Definition unavailable_error (attempt : Z) : JsError :=
  {| message := "unavailable"; code := Some UNAVAILABLE |}.

Definition permission_denied_error : JsError :=
  {| message := "denied"; code := Some PERMISSION_DENIED |}.

Definition aborted_error : JsError :=
  {| message := "aborted"; code := Some ABORTED |}.

Definition exhausted_error : JsError :=
  {| message := "quota"; code := Some RESOURCE_EXHAUSTED |}.

Definition always_unavailable (attempt : Z) : Work :=
  Ret (APromise (Rejected (unavailable_error attempt))).

Definition always_denied (attempt : Z) : Work :=
  Ret (APromise (Rejected permission_denied_error)).

Definition always_aborted (attempt : Z) : Work :=
  Ret (APromise (Rejected aborted_error)).

Definition returns_plain (attempt : Z) : Work :=
  DoWrite (WSet (doc "col/a") (VNumber 1)) (Ret (NotAPromise (VNumber 5))).

Definition sets_and_resolves (attempt : Z) : Work :=
  DoWrite (WSet (doc "col/a") (VNumber 1)) (Ret (APromise (Fulfilled (VNumber 7)))).

Definition exhausted_then_ok (attempt : Z) : Work :=
  if attempt =? 0 then Ret (APromise (Rejected exhausted_error))
  else Ret (APromise (Fulfilled (VString "done"))).


(** ** Assumptions on the surroundings, as predicates *)

Definition begin_succeeds (env : Env) : Prop :=
  forall tr, exists transaction, request_beginTransaction env tr = Fulfilled transaction.

Definition rollback_succeeds (env : Env) : Prop :=
  forall tr, request_rollback env tr = Fulfilled tt.

(** The callback fails with [e]: it throws [e], or the promise it returns
    rejects with [e]. *)
Definition fails_with (c : Completion Returned) (e : JsError) : Prop :=
  c = Throw e \/ c = Normal (APromise (Rejected e)).

Definition NOT_A_PROMISE_MSG : string :=
  "You must return a Promise in your transaction()-callback.".

(** The error that sends an attempt into its [catch] clause: raised by the
    callback, by the check on what the callback returned, or by commit. *)
Inductive fails_attempt (env : Env) (wk : Work) : JsError -> Prop :=
| fails_in_callback (e : JsError) :
    (forall w, fails_with (fst (run_work env wk w)) e) ->
    fails_attempt env wk e
| fails_not_a_promise (v : JsValue) :
    (forall w, fst (run_work env wk w) = Normal (NotAPromise v)) ->
    fails_attempt env wk (new_Error NOT_A_PROMISE_MSG)
| fails_in_commit (e : JsError) (v : JsValue) :
    (forall w, fst (run_work env wk w) = Normal (APromise (Fulfilled v))) ->
    (forall tr, request_commit env tr = Rejected e) ->
    fails_attempt env wk e.

Definition retryable_codes : list Status :=
  [ABORTED; CANCELLED; UNKNOWN; DEADLINE_EXCEEDED;
   INTERNAL; UNAVAILABLE; UNAUTHENTICATED; RESOURCE_EXHAUSTED].

(** In a list of backoff calls and begins, every begin comes right after a
    wait, and a wait is preceded by at most one reset to the maximum. *)
Fixpoint waits_precede_begins (l : list BackoffCall) : bool :=
  match l with
  | [] => true
  | BWait :: BBegin :: rest => waits_precede_begins rest
  | BResetToMax :: BWait :: BBegin :: rest => waits_precede_begins rest
  | _ => false
  end.

(** The backoff calls of one attempt, up to its begin. *)
Definition attempt_calls (lastError : option JsError) : list BackoffCall :=
  match lastError with
  | Some e =>
      if code_is RESOURCE_EXHAUSTED e then [BResetToMax; BWait; BBegin]
      else [BWait; BBegin]
  | None => [BWait; BBegin]
  end.

(** What a piece of the run added to the trace: [ext], with its life-cycle
    RPCs [ks] and its backoff calls [bs]. *)
Definition extends (w w' : World) (ks : list RpcKind) (bs : list BackoffCall) : Prop :=
  exists ext, trace w' = (trace w ++ ext)%list /\ rpc_kinds ext = ks /\ backoff_calls ext = bs.

(** What the [catch] clause makes of the error [err] it received, given the
    way the rollback it awaits settles. *)
Definition catch_outcome (rb : Promise unit) (err : JsError) : Step :=
  match rb with
  | Rejected e => Done (Rejects (Some e))
  | Fulfilled _ =>
      if isRetryableTransactionError err then Next err
      else Done (Rejects (Some err))
  end.

(** [n] begin/rollback cycles in a row, with no commit. *)
Fixpoint cycles (n : nat) : list RpcKind :=
  match n with
  | O => []
  | S n' => KBegin :: KRollback :: cycles n'
  end.

(** ** Further observations on traces *)

(** [ev] is a read issued on behalf of the transaction [t]: a batched
    document read ([getAll_]) carries the request tag and the handle that
    [t] holds; a query read ([_get]) is given the handle only. *)
Definition read_of (t : Transaction) (ev : Event) : Prop :=
  match ev with
  | EvGetAll_ _ _ tag transaction =>
      tag = _requestTag t /\ transaction = _transactionId t
  | EvQueryGet _ transaction => transaction = _transactionId t
  | _ => False
  end.

(** The steps of the retry loop that a trace shows; reads and resets of the
    backoff policy are left out. *)
Inductive Phase : Type := PWait | PBegin | PCallback | PCommit | PRollback.

Fixpoint phases (tr : list Event) : list Phase :=
  match tr with
  | [] => []
  | EvBackoffAndWait :: rest => PWait :: phases rest
  | EvBeginTransaction _ _ :: rest => PBegin :: phases rest
  | EvUpdateFunction _ :: rest => PCallback :: phases rest
  | EvCommit _ _ _ :: rest => PCommit :: phases rest
  | EvRollback _ _ :: rest => PRollback :: phases rest
  | _ :: rest => phases rest
  end.

(** A run is a chain of attempts.  An attempt that is followed by another
    one went through wait, begin, callback, possibly commit, and rollback;
    the last one may also stop after its begin or after its commit. *)
Fixpoint attempts_shape (ps : list Phase) : bool :=
  match ps with
  | [] => true
  | PWait :: PBegin :: PCallback :: PCommit :: PRollback :: rest => attempts_shape rest
  | PWait :: PBegin :: PCallback :: PRollback :: rest => attempts_shape rest
  | PWait :: PBegin :: PCallback :: PCommit :: [] => true
  | PWait :: PBegin :: [] => true
  | _ => false
  end.

Definition is_begin (p : Phase) : bool :=
  match p with PBegin => true | _ => false end.

Definition count_begins (ps : list Phase) : nat :=
  List.length (filter is_begin ps).

(** The phases that one turn of the loop may show, by its outcome. *)
Definition attempt_phases_ok (st : Step) (ps : list Phase) : Prop :=
  match st with
  | Done (Resolves _) => ps = [PWait; PBegin; PCallback; PCommit]
  | Next _ =>
      ps = [PWait; PBegin; PCallback; PRollback]
      \/ ps = [PWait; PBegin; PCallback; PCommit; PRollback]
  | Done (Rejects _) =>
      ps = [PWait; PBegin]
      \/ ps = [PWait; PBegin; PCallback; PRollback]
      \/ ps = [PWait; PBegin; PCallback; PCommit; PRollback]
  end.

(** The handle the transaction holds once [ev] has been issued, [upto]
    being the trace up to and including [ev]: a begin that succeeds brings
    a new handle, anything else leaves the handle as it is. *)
Definition next_handle (env : Env) (upto : list Event) (h : option Uint8Array)
  (ev : Event) : option Uint8Array :=
  match ev with
  | EvBeginTransaction _ _ =>
      match request_beginTransaction env upto with
      | Fulfilled transaction => Some transaction
      | Rejected _ => h
      end
  | _ => h
  end.

Fixpoint handle_after (env : Env) (pre : list Event) (h : option Uint8Array)
  (tr : list Event) : option Uint8Array :=
  match tr with
  | [] => h
  | ev :: rest =>
      handle_after env (pre ++ [ev])%list (next_handle env (pre ++ [ev])%list h ev) rest
  end.

(** Every call of [tr], issued after [pre] by a transaction that held the
    handle [h], carries the request tag [tag] and the handle held at that
    moment: reads, commit and rollback as their transaction, begin as its
    retry hint. *)
Fixpoint scoped (env : Env) (tag : string) (pre : list Event)
  (h : option Uint8Array) (tr : list Event) : Prop :=
  match tr with
  | [] => True
  | ev :: rest =>
      match ev with
      | EvBeginTransaction retryTransaction tg => retryTransaction = h /\ tg = tag
      | EvCommit transaction tg _ => transaction = h /\ tg = tag
      | EvRollback transaction tg => transaction = h /\ tg = tag
      | EvGetAll_ _ _ tg transaction => transaction = h /\ tg = tag
      | EvQueryGet _ transaction => transaction = h
      | _ => True
      end
      /\ scoped env tag (pre ++ [ev])%list (next_handle env (pre ++ [ev])%list h ev) rest
  end.

(** From [w] to [w'] the transaction kept its request tag, every call it
    issued was scoped to the handle it held, and it ends holding the handle
    of the last begin that succeeded. *)
Definition session_step (env : Env) (w w' : World) : Prop :=
  _requestTag (this w') = _requestTag (this w)
  /\ exists ext,
       trace w' = (trace w ++ ext)%list
       /\ scoped env (_requestTag (this w)) (trace w) (_transactionId (this w)) ext
       /\ _transactionId (this w') =
            handle_after env (trace w) (_transactionId (this w)) ext.

(** What [run_work] leaves of the session it was given. *)
Definition kept_session (w w' : World) : Prop :=
  _requestTag (this w') = _requestTag (this w)
  /\ _transactionId (this w') = _transactionId (this w)
  /\ (exists added, _ops (this w') = (_ops (this w) ++ added)%list)
  /\ (exists reads, trace w' = (trace w ++ reads)%list /\ Forall (read_of (this w)) reads).

(** What the last phase of a run tells about the way it settled. *)
Definition settles_as (s : Settlement) (ps : list Phase) : Prop :=
  match s with
  | Resolves _ => exists pre, ps = (pre ++ [PWait; PBegin; PCallback; PCommit])%list
  | Rejects _ =>
      ps = [] \/ exists pre, ps = (pre ++ [PBegin])%list \/ ps = (pre ++ [PRollback])%list
  end.

(** What a piece of the run added to the trace, by its phases. *)
Definition shows (w w' : World) (ps : list Phase) : Prop :=
  exists ext, trace w' = (trace w ++ ext)%list /\ phases ext = ps.

(** A callback that records the writes [ops], in this order, and returns. *)
Fixpoint writes_then (ops : list WriteOp) (r : Returned) : Work :=
  match ops with
  | [] => Ret r
  | op :: rest => DoWrite op (writes_then rest r)
  end.

Definition commit_succeeds (env : Env) : Prop :=
  forall tr, request_commit env tr = Fulfilled tt.

Definition is_field_path_argument (v : JsValue) : bool :=
  match v with VString _ | VFieldPath _ => true | _ => false end.

(** A server on which no transaction can be begun. *)
Definition begin_error : JsError :=
  {| message := "no transaction"; code := Some UNAVAILABLE |}.

Definition env_begin_fails : Env :=
  {| request_beginTransaction := fun _ => Rejected begin_error;
     request_commit := fun _ => Fulfilled tt;
     request_rollback := fun _ => Fulfilled tt;
     firestore_getAll_ := fun _ => Fulfilled [];
     query_get := fun _ => Fulfilled VUndefined |}.

(** A callback that fails twice with ABORTED and then resolves. *)
Definition third_time_lucky (attempt : Z) : Work :=
  if attempt <? 2 then Ret (APromise (Rejected aborted_error))
  else DoWrite (WDelete (doc "col/a")) (Ret (APromise (Fulfilled (VString "ok")))).

(** ** Retries and the length of waits *)

(** The backoff calls, up to its begin, of the attempt that follows a
    failure with [e]. *)
Definition calls_after (e : JsError) : list BackoffCall :=
  match code e with
  | Some RESOURCE_EXHAUSTED => [BResetToMax; BWait; BBegin]
  | _ => [BWait; BBegin]
  end.

(** The backoff calls of the [n] retries that follow the failures [err a],
    [err (a + 1)], ... *)
Fixpoint retry_calls (err : Z -> JsError) (a : Z) (n : nat) : list BackoffCall :=
  match n with
  | O => []
  | S n' => (calls_after (err a) ++ retry_calls err (a + 1) n')%list
  end.


(** Modelled from the spec: backoff.ts is absent.  The policy "computes
    increasing delay intervals and can be forced to its maximum delay", the
    delay "grows exponentially per attempt", and "the very first attempt
    never waits": as the loop asks the policy for a wait before every
    attempt, the interval a new policy starts from is zero.  After a wait
    the interval is multiplied, raised to the initial delay and capped at
    the maximum.  Jitter is left out. *)
Record BackoffConfig : Type := mkBackoffConfig {
  initialDelayMs : Z;
  backoffFactor : Z;
  maxDelayMs : Z
}.

Definition next_interval (cfg : BackoffConfig) (currentBaseMs : Z) : Z :=
  Z.min (Z.max (currentBaseMs * backoffFactor cfg) (initialDelayMs cfg))
        (maxDelayMs cfg).

(** The lengths of the waits that a list of backoff calls makes, for a
    policy whose interval is [currentBaseMs] at its start. *)
Fixpoint wait_delays (cfg : BackoffConfig) (currentBaseMs : Z)
  (calls : list BackoffCall) : list Z :=
  match calls with
  | [] => []
  | BResetToMax :: rest => wait_delays cfg (maxDelayMs cfg) rest
  | BWait :: rest => currentBaseMs :: wait_delays cfg (next_interval cfg currentBaseMs) rest
  | BBegin :: rest => wait_delays cfg currentBaseMs rest
  end.

Definition example_backoff : BackoffConfig :=
  {| initialDelayMs := 1000; backoffFactor := 2; maxDelayMs := 60000 |}.

Definition alternating_error (attempt : Z) : JsError :=
  if Z.even attempt then exhausted_error else aborted_error.

(** A callback that fails on every attempt, in turn with RESOURCE_EXHAUSTED
    and with ABORTED. *)
Definition alternating (attempt : Z) : Work :=
  Ret (APromise (Rejected (alternating_error attempt))).

(** * Properties *)

Local Open Scope list_scope.

(** ** Traces *)

Lemma rpc_kinds_app (a b : list Event) :
  rpc_kinds (a ++ b) = rpc_kinds a ++ rpc_kinds b.
Proof.
  induction a as [|ev a IH]; simpl; [reflexivity|].
  destruct ev; simpl; rewrite IH; reflexivity.
Qed.

Lemma backoff_calls_app (a b : list Event) :
  backoff_calls (a ++ b) = backoff_calls a ++ backoff_calls b.
Proof.
  induction a as [|ev a IH]; simpl; [reflexivity|].
  destruct ev; simpl; rewrite IH; reflexivity.
Qed.

Lemma extends_refl (w : World) : extends w w [] [].
Proof. exists []. rewrite app_nil_r. auto. Qed.

Lemma extends_trans (w1 w2 w3 : World) ks1 ks2 bs1 bs2 :
  extends w1 w2 ks1 bs1 -> extends w2 w3 ks2 bs2 ->
  extends w1 w3 (ks1 ++ ks2) (bs1 ++ bs2).
Proof.
  intros (e1 & H1 & K1 & B1) (e2 & H2 & K2 & B2).
  exists (e1 ++ e2). rewrite H2, H1, <- app_assoc.
  rewrite rpc_kinds_app, backoff_calls_app, K1, K2, B1, B2. auto.
Qed.

Lemma extends_emit (ev : Event) (w : World) :
  extends w (emit ev w) (rpc_kinds [ev]) (backoff_calls [ev]).
Proof. exists [ev]. auto. Qed.

Lemma extends_same_trace (w w' : World) :
  trace w' = trace w -> extends w w' [] [].
Proof. intros H. exists []. rewrite app_nil_r. auto. Qed.

Lemma get_extends (env : Env) (r : JsValue) (w : World) :
  extends w (snd (get env r w)) [] [].
Proof.
  unfold get.
  destruct (negb (isEmpty (this w))); [apply extends_refl|].
  destruct (instanceof_DocumentReference r); [apply extends_emit|].
  destruct (instanceof_Query r); [apply extends_emit|apply extends_refl].
Qed.

Lemma getAll_extends (env : Env) (args : list JsValue) (w : World) :
  extends w (snd (getAll env args w)) [] [].
Proof.
  unfold getAll.
  destruct (negb (isEmpty (this w))); [apply extends_refl|].
  destruct (validateMinNumberOfArguments _ _ _); [|apply extends_refl].
  destruct (parseGetAllArguments args); [apply extends_emit|apply extends_refl].
Qed.

(** The callback adds no life-cycle RPC and no backoff call of its own. *)
Lemma run_work_extends (env : Env) (wk : Work) :
  forall w, extends w (snd (run_work env wk w)) [] [].
Proof.
  induction wk as [r|e|r k IH|args k IH|op k IH]; intros w; simpl.
  - apply extends_refl.
  - apply extends_refl.
  - pose proof (get_extends env r w) as G.
    destruct (get env r w) as [c w1]; simpl in G.
    apply (extends_trans _ _ _ [] [] [] [] G (IH c w1)).
  - pose proof (getAll_extends env args w) as G.
    destruct (getAll env args w) as [c w1]; simpl in G.
    apply (extends_trans _ _ _ [] [] [] [] G (IH c w1)).
  - apply (extends_trans w (record_write op w) _ [] [] [] []);
      [apply extends_same_trace; reflexivity|apply IH].
Qed.

(** ** One attempt *)

Lemma commit_extends (env : Env) (w : World) :
  extends w (snd (commit env w)) [KCommit] [].
Proof. apply extends_emit. Qed.

(** Runs the callback of attempt [a] from [w]: names its completion [c] and
    the world [w1] it leaves, and records in [X'] that it added no
    life-cycle RPC and no backoff call. *)
Ltac run_callback env uf a w c w1 X' :=
  let X := fresh "X" in
  pose proof (run_work_extends env (uf a) (emit (EvUpdateFunction a) w)) as X;
  pose proof (extends_trans _ _ _ _ _ _ _ (extends_emit (EvUpdateFunction a) w) X) as X';
  simpl in X';
  destruct (run_work env (uf a) (emit (EvUpdateFunction a) w)) as [c w1].

(** An attempt whose callback fails never reaches commit. *)
Lemma try_block_callback_fails (env : Env) (uf : Z -> Work) (a : Z) (e : JsError) :
  (forall w, fails_with (fst (run_work env (uf a) w)) e) ->
  forall w, exists w', try_block env uf a w = (Rejected e, w') /\ extends w w' [] [].
Proof.
  intros F w. unfold try_block.
  pose proof (F (emit (EvUpdateFunction a) w)) as Fw.
  run_callback env uf a w c w1 X'.
  simpl in Fw, X'. destruct Fw as [-> | ->]; exists w1; auto.
Qed.

Lemma try_block_not_a_promise (env : Env) (uf : Z -> Work) (a : Z) (v : JsValue) :
  (forall w, fst (run_work env (uf a) w) = Normal (NotAPromise v)) ->
  forall w, exists w',
    try_block env uf a w = (Rejected (new_Error NOT_A_PROMISE_MSG), w')
    /\ extends w w' [] [].
Proof.
  intros F w. unfold try_block.
  pose proof (F (emit (EvUpdateFunction a) w)) as Fw.
  run_callback env uf a w c w1 X'.
  simpl in Fw, X'. subst c. exists w1; auto.
Qed.

Lemma try_block_commit_fails (env : Env) (uf : Z -> Work) (a : Z)
  (e : JsError) (v : JsValue) :
  (forall w, fst (run_work env (uf a) w) = Normal (APromise (Fulfilled v))) ->
  (forall tr, request_commit env tr = Rejected e) ->
  forall w, exists w', try_block env uf a w = (Rejected e, w') /\ extends w w' [KCommit] [].
Proof.
  intros F C w. unfold try_block.
  pose proof (F (emit (EvUpdateFunction a) w)) as Fw.
  run_callback env uf a w c w1 X'.
  simpl in Fw, X'. subst c.
  pose proof (commit_extends env w1) as Cx.
  unfold commit in *. rewrite C. simpl in Cx.
  eexists; split; [reflexivity|].
  apply (extends_trans _ _ _ _ _ _ _ X' Cx).
Qed.

Lemma try_block_fails (env : Env) (uf : Z -> Work) (a : Z) (e : JsError) :
  fails_attempt env (uf a) e ->
  exists commits, (commits = [] \/ commits = [KCommit]) /\
    forall w, exists w', try_block env uf a w = (Rejected e, w') /\ extends w w' commits [].
Proof.
  intros [e' F | v F | e' v F C].
  - exists []. split; [auto|]. apply try_block_callback_fails; assumption.
  - exists []. split; [auto|]. apply (try_block_not_a_promise env uf a v); assumption.
  - exists [KCommit]. split; [auto|]. apply (try_block_commit_fails env uf a e' v); assumption.
Qed.

(** Whatever the callback does, the [try] block adds no backoff call. *)
Lemma try_block_extends (env : Env) (uf : Z -> Work) (a : Z) (w : World) :
  exists ks, extends w (snd (try_block env uf a w)) ks [].
Proof.
  unfold try_block.
  run_callback env uf a w c w1 X'.
  simpl in X'.
  destruct c as [[v|[v|e]]|e]; try (exists []; exact X').
  pose proof (commit_extends env w1) as Cx.
  destruct (commit env w1) as [[u|e] w2]; simpl in Cx |- *;
    exists ([] ++ [KCommit]); apply (extends_trans _ _ _ _ _ _ _ X' Cx).
Qed.

Lemma maybeBackoff_extends (lastError : option JsError) (w : World) :
  exists w1, maybeBackoff lastError (_reset w) = (Fulfilled tt, w1)
    /\ extends w w1 []
         (match lastError with
          | Some e => if code_is RESOURCE_EXHAUSTED e then [BResetToMax; BWait] else [BWait]
          | None => [BWait]
          end).
Proof.
  unfold maybeBackoff. eexists; split; [reflexivity|].
  destruct lastError as [e|]; [destruct (code_is RESOURCE_EXHAUSTED e)|].
  - exists [EvResetToMax; EvBackoffAndWait]. simpl. rewrite <- app_assoc. auto.
  - exists [EvBackoffAndWait]. auto.
  - exists [EvBackoffAndWait]. auto.
Qed.

Lemma attempt_calls_split (lastError : option JsError) :
  match lastError with
  | Some e => if code_is RESOURCE_EXHAUSTED e then [BResetToMax; BWait] else [BWait]
  | None => [BWait]
  end ++ [BBegin] = attempt_calls lastError.
Proof.
  unfold attempt_calls. destruct lastError as [e|]; [destruct (code_is _ e)|]; reflexivity.
Qed.

(** Every attempt makes the backoff calls of [attempt_calls], then begins,
    and makes no other backoff call. *)
Lemma attempt_body_extends (env : Env) (uf : Z -> Work) (a : Z)
  (lastError : option JsError) (w : World) :
  exists ks, extends w (snd (attempt_body env uf a lastError w)) ks
               (attempt_calls lastError).
Proof.
  unfold attempt_body.
  destruct (maybeBackoff_extends lastError w) as (w1 & -> & X1).
  assert (exists ks, extends w (snd (begin env w1)) ks (attempt_calls lastError)) as XB.
  { exists ([] ++ [KBegin]). rewrite <- attempt_calls_split.
    apply (extends_trans _ _ _ _ _ _ _ X1).
    unfold begin.
    destruct (request_beginTransaction env _); simpl;
      exists [EvBeginTransaction (_transactionId (this w1)) (_requestTag (this w1))];
      auto. }
  destruct (begin env w1) as [[u|e] w2]; simpl in XB; [|exact XB].
  destruct XB as (ks & XB).
  destruct (try_block_extends env uf a w2) as (ks2 & XT).
  pose proof (extends_trans _ _ _ _ _ _ _ XB XT) as X3. rewrite app_nil_r in X3.
  destruct (try_block env uf a w2) as [[result|err] w3]; simpl in X3.
  - eexists; exact X3.
  - assert (extends w3 (snd (rollback env w3)) [KRollback] []) as XR
        by apply extends_emit.
    pose proof (extends_trans _ _ _ _ _ _ _ X3 XR) as X4. rewrite app_nil_r in X4.
    destruct (rollback env w3) as [[u'|e'] w4]; simpl in X4 |- *.
    + destruct (isRetryableTransactionError err); eexists; exact X4.
    + eexists; exact X4.
Qed.

(** An attempt that fails with [err]: one begin, at most one commit, one
    rollback, and the outcome that [catch_outcome] tells. *)
Lemma attempt_body_catch (env : Env) (uf : Z -> Work) (a : Z)
  (lastError : option JsError) (err : JsError) (rb : Promise unit)
  (commits : list RpcKind) :
  begin_succeeds env ->
  (forall w, exists w', try_block env uf a w = (Rejected err, w')
                        /\ extends w w' commits []) ->
  (forall tr, request_rollback env tr = rb) ->
  forall w, exists w',
    attempt_body env uf a lastError w = (catch_outcome rb err, w')
    /\ extends w w' (KBegin :: commits ++ [KRollback]) (attempt_calls lastError).
Proof.
  intros HB HT HR w. unfold attempt_body.
  destruct (maybeBackoff_extends lastError w) as (w1 & -> & X1).
  unfold begin.
  destruct (HB (trace (emit (EvBeginTransaction (_transactionId (this w1))
                               (_requestTag (this w1))) w1))) as (t & ->).
  match goal with |- context [try_block env uf a ?w2] =>
    destruct (HT w2) as (w3 & -> & XT);
    assert (extends w1 w2 [KBegin] [BBegin]) as XB
      by (exists [EvBeginTransaction (_transactionId (this w1)) (_requestTag (this w1))];
          auto)
  end.
  unfold rollback. rewrite HR.
  exists (emit (EvRollback (_transactionId (this w3)) (_requestTag (this w3))) w3).
  split.
  - unfold catch_outcome. destruct rb as [u|e]; [|reflexivity].
    destruct (isRetryableTransactionError err); reflexivity.
  - rewrite <- attempt_calls_split.
    pose proof (extends_trans _ _ _ _ _ _ _ X1 XB) as X2.
    pose proof (extends_trans _ _ _ _ _ _ _ X2 XT) as X3.
    pose proof (extends_trans _ _ _ _ _ _ _ X3
                  (extends_emit (EvRollback (_transactionId (this w3))
                                   (_requestTag (this w3))) w3)) as X4.
    simpl in X4. rewrite !app_nil_r in X4. exact X4.
Qed.

(** ** The loop *)

Lemma attempts_exhausted (fuel : nat) (env : Env) (uf : Z -> Work)
  (maxAttempts attempt : Z) (lastError : option JsError) (w : World) :
  maxAttempts <= attempt ->
  attempts (S fuel) env uf maxAttempts attempt lastError w = Some (Rejects lastError, w).
Proof.
  intros H. simpl. destruct (Z.ltb_spec attempt maxAttempts); [lia|reflexivity].
Qed.

Lemma attempts_turn (fuel : nat) (env : Env) (uf : Z -> Work)
  (maxAttempts attempt : Z) (lastError : option JsError) (w : World) :
  attempt < maxAttempts ->
  attempts (S fuel) env uf maxAttempts attempt lastError w =
  match attempt_body env uf attempt lastError w with
  | (Done s, w1) => Some (s, w1)
  | (Next err, w1) => attempts fuel env uf maxAttempts (attempt + 1) (Some err) w1
  end.
Proof.
  intros H. simpl. destruct (Z.ltb_spec attempt maxAttempts); [reflexivity|lia].
Qed.

Lemma waits_precede_begins_attempt_calls (lastError : option JsError)
  (rest : list BackoffCall) :
  waits_precede_begins (attempt_calls lastError ++ rest) = waits_precede_begins rest.
Proof.
  unfold attempt_calls.
  destruct lastError as [e|]; [destruct (code_is RESOURCE_EXHAUSTED e)|]; reflexivity.
Qed.

(** The loop always ends within its bound, and its backoff calls come in
    the order wait-then-begin, attempt after attempt. *)
Lemma attempts_backoff (env : Env) (uf : Z -> Work) (maxAttempts : Z) :
  forall (fuel : nat) (attempt : Z) (lastError : option JsError) (w : World),
    (Z.to_nat (maxAttempts - attempt) < fuel)%nat ->
    exists s w' ks bs,
      attempts fuel env uf maxAttempts attempt lastError w = Some (s, w')
      /\ extends w w' ks bs
      /\ waits_precede_begins bs = true
      /\ (attempt < maxAttempts -> exists rest, bs = attempt_calls lastError ++ rest).
Proof.
  induction fuel as [|fuel IH]; intros attempt lastError w Hf; [lia|].
  destruct (Z.lt_ge_cases attempt maxAttempts) as [Hlt|Hge].
  - rewrite attempts_turn by assumption.
    destruct (attempt_body_extends env uf attempt lastError w) as (ks & X).
    destruct (attempt_body env uf attempt lastError w) as [[s|err] w1]; simpl in X.
    + exists s, w1, ks, (attempt_calls lastError). repeat split; auto.
      * rewrite <- (app_nil_r (attempt_calls lastError)).
        apply waits_precede_begins_attempt_calls.
      * intros _. exists []. rewrite app_nil_r. reflexivity.
    + destruct (IH (attempt + 1) (Some err) w1) as (s & w' & ks' & bs' & E & X' & W & _);
        [lia|].
      exists s, w', (ks ++ ks'), (attempt_calls lastError ++ bs').
      repeat split; auto.
      * apply (extends_trans _ _ _ _ _ _ _ X X').
      * rewrite waits_precede_begins_attempt_calls. exact W.
      * intros _. exists bs'. reflexivity.
  - rewrite attempts_exhausted by assumption.
    exists (Rejects lastError), w, [], []. repeat split.
    + apply extends_refl.
    + intros; lia.
Qed.

(** [runTransaction] always settles: the bound of the loop is never hit. *)
Lemma runTransaction_settles (env : Env) (uf : Z -> Work) (maxAttempts : Z) (w : World) :
  exists s w', runTransaction env uf maxAttempts w = Some (s, w').
Proof.
  destruct (attempts_backoff env uf maxAttempts (S (Z.to_nat maxAttempts)) 0 None w)
    as (s & w' & _ & _ & E & _); [rewrite Z.sub_0_r; lia|].
  exists s, w'. exact E.
Qed.

Lemma code_is_spec (s : Status) (e : JsError) :
  code_is s e = true <-> code e = Some s.
Proof.
  unfold code_is. destruct (code e) as [c|]; [|split; discriminate].
  destruct (Status_eq_dec c s) as [->|N]; split; auto; try discriminate.
  intros [= H]. contradiction.
Qed.

(** ** The read gate *)

Lemma get_after_write (env : Env) (refOrQuery : JsValue) (w : World) :
  isEmpty (this w) = false ->
  get env refOrQuery w = (Throw (new_Error READ_AFTER_WRITE_ERROR_MSG), w).
Proof. intros H. unfold get. rewrite H. reflexivity. Qed.

Lemma getAll_after_write (env : Env) (args : list JsValue) (w : World) :
  isEmpty (this w) = false ->
  getAll env args w = (Throw (new_Error READ_AFTER_WRITE_ERROR_MSG), w).
Proof. intros H. unfold getAll. rewrite H. reflexivity. Qed.

Lemma record_write_not_empty (op : WriteOp) (w : World) :
  isEmpty (this (record_write op w)) = false.
Proof.
  unfold isEmpty, record_write. simpl. destruct (_ops (this w)); reflexivity.
Qed.

Lemma exec_op_keeps_writes (env : Env) (o : Op) (w : World) :
  isEmpty (this w) = false -> isEmpty (this (exec_op env o w)) = false.
Proof.
  intros H. destruct o as [op|r|args]; simpl.
  - apply record_write_not_empty.
  - rewrite get_after_write by assumption. exact H.
  - rewrite getAll_after_write by assumption. exact H.
Qed.

Lemma exec_ops_keeps_writes (env : Env) (ops : list Op) :
  forall w, isEmpty (this w) = false -> isEmpty (this (exec_ops env ops w)) = false.
Proof.
  induction ops as [|o ops IH]; intros w H; simpl; [exact H|].
  apply IH, exec_op_keeps_writes, H.
Qed.

Lemma exec_ops_with_write (env : Env) (ops : list Op) :
  forall w, existsb is_write ops = true -> isEmpty (this (exec_ops env ops w)) = false.
Proof.
  induction ops as [|o ops IH]; intros w H; simpl in *; [discriminate|].
  destruct o as [op|r|args]; simpl in H.
  - apply exec_ops_keeps_writes. apply record_write_not_empty.
  - apply IH, H.
  - apply IH, H.
Qed.

(** C1 (as amended).  Within one attempt, after any sequence of operations
    in which at least one write was recorded, both [get] and [getAll] throw
    synchronously, before anything else is done: the transaction and the
    trace are left as they were, so no read RPC is issued.  The error is a
    plain [Error] whose message is the constant of the sources,
    "Firestore transactions require all reads to be executed before all
    writes." (with the product name in front and a full stop at the end). *)
Theorem read_after_write_throws (env : Env) (ops : list Op) (w : World)
  (refOrQuery : JsValue) (args : list JsValue) :
  existsb is_write ops = true ->
  get env refOrQuery (exec_ops env ops w)
    = (Throw (new_Error
         "Firestore transactions require all reads to be executed before all writes."),
       exec_ops env ops w)
  /\ getAll env args (exec_ops env ops w)
    = (Throw (new_Error
         "Firestore transactions require all reads to be executed before all writes."),
       exec_ops env ops w).
Proof.
  intros H. pose proof (exec_ops_with_write env ops w H) as E.
  split; [apply get_after_write|apply getAll_after_write]; exact E.
Qed.

Lemma read_after_write_throws_witness :
  get env_ok (doc "col/a")
    (exec_ops env_ok [OpGet (doc "col/a"); OpWrite (WDelete (doc "col/a"))] w0)
    = (Throw (new_Error
         "Firestore transactions require all reads to be executed before all writes."),
       exec_ops env_ok [OpGet (doc "col/a"); OpWrite (WDelete (doc "col/a"))] w0)
  /\ getAll env_ok [doc "col/a"; doc "col/b"]
       (exec_ops env_ok [OpGet (doc "col/a"); OpWrite (WDelete (doc "col/a"))] w0)
    = (Throw (new_Error
         "Firestore transactions require all reads to be executed before all writes."),
       exec_ops env_ok [OpGet (doc "col/a"); OpWrite (WDelete (doc "col/a"))] w0).
Proof.
  apply (read_after_write_throws env_ok
           [OpGet (doc "col/a"); OpWrite (WDelete (doc "col/a"))] w0).
  reflexivity.
Defined.

(** C1 as stated fails on the message: after one write, [get] throws an
    error whose message is not the one the claim quotes. *)
Lemma read_after_write_message_differs :
  exists e,
    fst (get env_ok (doc "col/a")
           (exec_ops env_ok [OpWrite (WDelete (doc "col/a"))] w0)) = Throw e
    /\ message e <> "transactions require all reads to be executed before all writes".
Proof.
  eexists. split; [reflexivity|]. simpl. discriminate.
Qed.

(** ** Classifying errors *)

Lemma isRetryable_codes (e : JsError) :
  isRetryableTransactionError e = existsb (fun c => code_is c e) retryable_codes.
Proof.
  unfold isRetryableTransactionError, code_is, retryable_codes.
  destruct (code e) as [c|]; [destruct c|]; reflexivity.
Qed.

(** A commit that is refused sends the attempt into its [catch] clause. *)
Example commit_failure_is_a_trigger :
  fails_attempt env_commit_fails (sets_and_resolves 0) commit_error
  /\ runTransaction env_commit_fails sets_and_resolves 3 w0
     = Some (Rejects (Some commit_error),
             {| this := {| _requestTag := "tag"; _transactionId := Some [Byte.x01];
                           _ops := [WSet (doc "col/a") (VNumber 1)] |};
                trace := [EvBackoffAndWait; EvBeginTransaction None "tag";
                          EvUpdateFunction 0;
                          EvCommit (Some [Byte.x01]) "tag"
                            [WSet (doc "col/a") (VNumber 1)];
                          EvRollback (Some [Byte.x01]) "tag"] |}).
Proof.
  split; [|reflexivity].
  apply (fails_in_commit _ _ commit_error (VNumber 7)); intros; reflexivity.
Qed.

(** ** An attempt starts with a begin *)

Lemma attempt_body_begins (env : Env) (uf : Z -> Work) (a : Z)
  (lastError : option JsError) (w : World) :
  exists ks, extends w (snd (attempt_body env uf a lastError w)) (KBegin :: ks)
               (attempt_calls lastError).
Proof.
  unfold attempt_body.
  destruct (maybeBackoff_extends lastError w) as (w1 & -> & X1).
  assert (extends w (snd (begin env w1)) [KBegin] (attempt_calls lastError)) as XB.
  { rewrite <- attempt_calls_split.
    apply (extends_trans _ _ _ [] [KBegin] _ _ X1).
    unfold begin.
    destruct (request_beginTransaction env _); simpl;
      exists [EvBeginTransaction (_transactionId (this w1)) (_requestTag (this w1))];
      auto. }
  destruct (begin env w1) as [[u|e] w2]; simpl in XB; [|exists []; exact XB].
  destruct (try_block_extends env uf a w2) as (ks2 & XT).
  pose proof (extends_trans _ _ _ _ _ _ _ XB XT) as X3.
  rewrite app_nil_r in X3. simpl in X3.
  destruct (try_block env uf a w2) as [[result|err] w3]; simpl in X3.
  - exists ks2. exact X3.
  - assert (extends w3 (snd (rollback env w3)) [KRollback] []) as XR
        by apply extends_emit.
    pose proof (extends_trans _ _ _ _ _ _ _ X3 XR) as X4.
    rewrite app_nil_r in X4.
    destruct (rollback env w3) as [[u'|e'] w4]; simpl in X4 |- *.
    + destruct (isRetryableTransactionError err); eexists; exact X4.
    + eexists; exact X4.
Qed.

(** A loop that is entered within the budget settles, and what it issues
    starts with the backoff calls and the begin of an attempt. *)
Lemma attempts_first_begin (env : Env) (uf : Z -> Work) (maxAttempts : Z)
  (fuel : nat) (attempt : Z) (lastError : option JsError) (w : World) :
  attempt < maxAttempts ->
  (Z.to_nat (maxAttempts - attempt) < fuel)%nat ->
  exists s w' ks bs,
    attempts fuel env uf maxAttempts attempt lastError w = Some (s, w')
    /\ extends w w' (KBegin :: ks) (attempt_calls lastError ++ bs)
    /\ waits_precede_begins bs = true.
Proof.
  intros Hlt Hf. destruct fuel as [|fuel]; [lia|].
  rewrite attempts_turn by assumption.
  destruct (attempt_body_begins env uf attempt lastError w) as (ks & X).
  destruct (attempt_body env uf attempt lastError w) as [[s|err] w1]; simpl in X.
  - exists s, w1, ks, []. rewrite app_nil_r. auto.
  - destruct (attempts_backoff env uf maxAttempts fuel (attempt + 1) (Some err) w1)
      as (s & w' & ks' & bs' & E & X' & W & _); [lia|].
    exists s, w', (ks ++ ks'), bs'. split; [exact E|]. split; [|exact W].
    apply (extends_trans _ _ _ _ _ _ _ X X').
Qed.

Lemma attempt_calls_after (e : JsError) : attempt_calls (Some e) = calls_after e.
Proof.
  unfold attempt_calls, calls_after, code_is.
  destruct (code e) as [c|]; [destruct c|]; reflexivity.
Qed.

(** ** Runs against a server on which begin and rollback succeed *)

Section WorkingServer.

Variable env : Env.
Hypothesis begin_ok : begin_succeeds env.
Hypothesis rollback_ok : rollback_succeeds env.

(** A callback that fails with a retryable error on every attempt uses up
    the budget: [n] cycles, no commit, and the last error comes out. *)
Lemma attempts_all_retryable (uf : Z -> Work) (err : Z -> JsError)
  (maxAttempts : Z) :
  (forall a w, fails_with (fst (run_work env (uf a) w)) (err a)) ->
  (forall a, isRetryableTransactionError (err a) = true) ->
  forall (n : nat) (attempt : Z) (lastError : option JsError) (w : World),
    maxAttempts - attempt = Z.of_nat n ->
    exists w' bs,
      attempts (S n) env uf maxAttempts attempt lastError w =
        Some (Rejects (match n with
                       | O => lastError
                       | S _ => Some (err (maxAttempts - 1))
                       end), w')
      /\ extends w w' (cycles n) bs.
Proof.
  intros HF HC.
  induction n as [|n IH]; intros attempt lastError w Hn.
  - rewrite attempts_exhausted by lia. exists w, []. split; [reflexivity|apply extends_refl].
  - rewrite attempts_turn by lia.
    destruct (attempt_body_catch env uf attempt lastError (err attempt) (Fulfilled tt) []
                begin_ok (try_block_callback_fails env uf attempt (err attempt) (HF attempt))
                rollback_ok w) as (w1 & -> & X).
    unfold catch_outcome. rewrite HC.
    destruct (IH (attempt + 1) (Some (err attempt)) w1) as (w' & bs & E & X'); [lia|].
    exists w', (attempt_calls lastError ++ bs). split.
    + rewrite E. destruct n as [|n'].
      * replace (maxAttempts - 1) with attempt by lia. reflexivity.
      * reflexivity.
    + apply (extends_trans _ _ _ _ _ _ _ X X').
Qed.

(** The first [n] attempts of a loop whose callback fails on each of them
    with a retryable error: [n] cycles, after which the loop goes on. *)
Lemma attempts_skip_callback_failures (uf : Z -> Work) (err : Z -> JsError)
  (maxAttempts : Z) :
  forall (n fuel : nat) (attempt : Z) (lastError : option JsError) (w : World),
    (n <= fuel)%nat ->
    attempt + Z.of_nat n <= maxAttempts ->
    (forall a w, attempt <= a < attempt + Z.of_nat n ->
                 fails_with (fst (run_work env (uf a) w)) (err a)) ->
    (forall a, attempt <= a < attempt + Z.of_nat n ->
               isRetryableTransactionError (err a) = true) ->
    exists w1 bs,
      attempts fuel env uf maxAttempts attempt lastError w
      = attempts (fuel - n) env uf maxAttempts (attempt + Z.of_nat n)
          (match n with
           | O => lastError
           | S _ => Some (err (attempt + Z.of_nat n - 1))
           end) w1
      /\ extends w w1 (cycles n) bs.
Proof.
  induction n as [|n IH]; intros fuel attempt lastError w Hf Hm HF HC.
  - exists w, []. rewrite Nat.sub_0_r, Z.add_0_r. split; [reflexivity|apply extends_refl].
  - destruct fuel as [|fuel]; [lia|]. rewrite attempts_turn by lia.
    destruct (attempt_body_catch env uf attempt lastError (err attempt) (Fulfilled tt) []
                begin_ok (try_block_callback_fails env uf attempt (err attempt)
                            (fun w => HF attempt w ltac:(lia)))
                rollback_ok w) as (w1 & -> & X).
    unfold catch_outcome. rewrite HC by lia.
    destruct (IH fuel (attempt + 1) (Some (err attempt)) w1) as (w2 & bs & E & X');
      try lia.
    + intros a w' Ha. apply HF. lia.
    + intros a Ha. apply HC. lia.
    + exists w2, (attempt_calls lastError ++ bs). split.
      * rewrite E. simpl Nat.sub.
        replace (attempt + 1 + Z.of_nat n) with (attempt + Z.of_nat (S n)) by lia.
        destruct n as [|n'].
        -- replace (attempt + Z.of_nat 1 - 1) with attempt by lia. reflexivity.
        -- replace (attempt + 1 + Z.of_nat (S n') - 1)
             with (attempt + Z.of_nat (S (S n')) - 1) by lia.
           reflexivity.
      * apply (extends_trans _ _ _ _ _ _ _ X X').
Qed.

(** The backoff calls of a loop whose next [n] attempts fail with retryable
    errors and which is allowed one attempt more. *)
Lemma retry_backoff (uf : Z -> Work) (err : Z -> JsError) (maxAttempts : Z) :
  forall (n fuel : nat) (attempt : Z) (lastError : option JsError) (w : World),
    attempt + Z.of_nat n < maxAttempts ->
    (Z.to_nat (maxAttempts - attempt) < fuel)%nat ->
    (forall a, attempt <= a < attempt + Z.of_nat n ->
               fails_attempt env (uf a) (err a)) ->
    (forall a, attempt <= a < attempt + Z.of_nat n ->
               isRetryableTransactionError (err a) = true) ->
    exists s w' ks bs,
      attempts fuel env uf maxAttempts attempt lastError w = Some (s, w')
      /\ extends w w' ks (attempt_calls lastError ++ retry_calls err attempt n ++ bs)
      /\ waits_precede_begins bs = true.
Proof.
  induction n as [|n IH]; intros fuel attempt lastError w Hm Hf HF HC.
  - destruct (attempts_first_begin env uf maxAttempts fuel attempt lastError w)
      as (s & w' & ks & bs & E & X & W); [lia|lia|].
    exists s, w', (KBegin :: ks), bs. auto.
  - destruct fuel as [|fuel]; [lia|]. rewrite attempts_turn by lia.
    destruct (try_block_fails env uf attempt (err attempt) (HF attempt ltac:(lia)))
      as (commits & _ & HT).
    destruct (attempt_body_catch env uf attempt lastError (err attempt) (Fulfilled tt)
                commits begin_ok HT rollback_ok w) as (w1 & -> & X).
    unfold catch_outcome. rewrite HC by lia.
    destruct (IH fuel (attempt + 1) (Some (err attempt)) w1)
      as (s & w' & ks & bs & E & X' & W); try lia.
    + intros a Ha. apply HF. lia.
    + intros a Ha. apply HC. lia.
    + exists s, w', ((KBegin :: commits ++ [KRollback]) ++ ks), bs.
      split; [exact E|]. split; [|exact W].
      pose proof (extends_trans _ _ _ _ _ _ _ X X') as XX.
      rewrite attempt_calls_after in XX. simpl retry_calls.
      rewrite <- app_assoc. exact XX.
Qed.

(** C2.  With a server on which begin and rollback succeed, a callback that
    fails on every attempt with an error coded UNAVAILABLE, and
    [maxAttempts = 3]: [runTransaction] makes exactly three begin/rollback
    cycles and no commit, and rejects with the error of the last attempt. *)
Theorem unavailable_three_attempts (uf : Z -> Work) (err : Z -> JsError)
  (w : World) :
  (forall a w, fails_with (fst (run_work env (uf a) w)) (err a)) ->
  (forall a, code (err a) = Some UNAVAILABLE) ->
  exists w' ext,
    runTransaction env uf 3 w = Some (Rejects (Some (err 2)), w')
    /\ trace w' = trace w ++ ext
    /\ rpc_kinds ext = [KBegin; KRollback; KBegin; KRollback; KBegin; KRollback].
Proof.
  intros HF HC.
  assert (forall a, isRetryableTransactionError (err a) = true) as HRetry.
  { intros a. unfold isRetryableTransactionError. rewrite HC. reflexivity. }
  destruct (attempts_all_retryable uf err 3 HF HRetry 3%nat 0 None w)
    as (w' & bs & E & (ext & T & K & _)); [reflexivity|].
  exists w', ext. repeat split; assumption.
Qed.

(** C3.  The retryable errors are exactly those whose code is one of
    ABORTED, CANCELLED, UNKNOWN, DEADLINE_EXCEEDED, INTERNAL, UNAVAILABLE,
    UNAUTHENTICATED, RESOURCE_EXHAUSTED; an error without a code is not.
    Take a run in which [k] attempts have failed in the callback with
    retryable errors and attempt [k] fails with [e], raised by the callback
    or by commit, on a server on which begin and rollback succeed.  That
    attempt makes one begin and one rollback.  If [e] is retryable and the
    budget allows one attempt more, a further begin follows: the error is
    retried; if the budget is used up, the run rejects with [e].  If [e] is
    not retryable the run rejects with [e] at once and nothing follows the
    rollback, whatever [maxAttempts] is; for [k = 0] this is exactly one
    begin/rollback cycle. *)
Theorem retry_classification (uf : Z -> Work) (err : Z -> JsError)
  (maxAttempts : Z) (w : World) (k : nat) (e : JsError) :
  Z.of_nat k < maxAttempts ->
  (forall a w, 0 <= a < Z.of_nat k ->
               fails_with (fst (run_work env (uf a) w)) (err a)) ->
  (forall a, 0 <= a < Z.of_nat k -> isRetryableTransactionError (err a) = true) ->
  fails_attempt env (uf (Z.of_nat k)) e ->
  (forall e' : JsError,
      isRetryableTransactionError e' =
        match code e' with
        | Some c =>
            if in_dec Status_eq_dec c
                 [ABORTED; CANCELLED; UNKNOWN; DEADLINE_EXCEEDED;
                  INTERNAL; UNAVAILABLE; UNAUTHENTICATED; RESOURCE_EXHAUSTED]
            then true else false
        | None => false
        end)
  /\ exists s w' ext commits,
       runTransaction env uf maxAttempts w = Some (s, w')
       /\ trace w' = trace w ++ ext
       /\ (commits = [] \/ commits = [KCommit])
       /\ if isRetryableTransactionError e
          then
            if Z.of_nat k + 1 <? maxAttempts
            then exists rest,
                rpc_kinds ext
                = cycles k ++ KBegin :: commits ++ KRollback :: KBegin :: rest
            else s = Rejects (Some e)
                 /\ rpc_kinds ext = cycles k ++ KBegin :: commits ++ [KRollback]
          else s = Rejects (Some e)
               /\ rpc_kinds ext = cycles k ++ KBegin :: commits ++ [KRollback].
Proof.
  intros HM HF HC HE. split.
  - intros e'. unfold isRetryableTransactionError.
    destruct (code e') as [c|]; [destruct c|]; reflexivity.
  - destruct (try_block_fails env uf (Z.of_nat k) e HE) as (commits & HCm & HT).
    destruct (attempts_skip_callback_failures uf err maxAttempts k
                (S (Z.to_nat maxAttempts)) 0 None w) as (w1 & bs & E1 & X1);
      [lia|lia|intros a w2 Ha; apply HF; lia|intros a Ha; apply HC; lia|].
    rewrite Z.add_0_l in E1.
    replace (S (Z.to_nat maxAttempts) - k)%nat
      with (S (Z.to_nat maxAttempts - k)) in E1 by lia.
    rewrite (attempts_turn (Z.to_nat maxAttempts - k) env uf maxAttempts (Z.of_nat k))
      in E1 by lia.
    match type of E1 with context [attempt_body env uf (Z.of_nat k) ?l w1] =>
      destruct (attempt_body_catch env uf (Z.of_nat k) l e (Fulfilled tt) commits
                  begin_ok HT rollback_ok w1) as (w2 & E2 & X2)
    end.
    rewrite E2 in E1. unfold catch_outcome in E1.
    pose proof (extends_trans _ _ _ _ _ _ _ X1 X2) as X12.
    destruct (isRetryableTransactionError e).
    + destruct (Z.ltb_spec (Z.of_nat k + 1) maxAttempts) as [Hlt|Hge].
      * destruct (attempts_first_begin env uf maxAttempts (Z.to_nat maxAttempts - k)
                    (Z.of_nat k + 1) (Some e) w2) as (s & w' & ks & bs' & E3 & X3 & _);
          [lia|lia|].
        destruct (extends_trans _ _ _ _ _ _ _ X12 X3) as (ext & T & K & _).
        exists s, w', ext, commits.
        split; [unfold runTransaction; rewrite E1; exact E3|].
        split; [exact T|]. split; [exact HCm|].
        exists ks. rewrite K, <- !app_assoc. simpl. rewrite <- !app_assoc. reflexivity.
      * replace (Z.to_nat maxAttempts - k)%nat
          with (S (Z.to_nat maxAttempts - k - 1)) in E1 by lia.
        rewrite (attempts_exhausted (Z.to_nat maxAttempts - k - 1) env uf maxAttempts
                   (Z.of_nat k + 1)) in E1 by lia.
        destruct X12 as (ext & T & K & _).
        exists (Rejects (Some e)), w2, ext, commits. auto.
    + destruct X12 as (ext & T & K & _).
      exists (Rejects (Some e)), w2, ext, commits. auto.
Qed.

(** C7.  Take a run whose first [n] attempts fail with the retryable
    errors [err 0], [err 1], ... and which is allowed one attempt more, on a
    server on which begin and rollback succeed.  The first attempt waits
    and begins without a reset; then, before each of the next [n] attempts,
    the backoff policy is reset to its maximum delay exactly when the error
    of the attempt just before has the code RESOURCE_EXHAUSTED, and after
    any other code the wait comes with no reset ([calls_after]). *)
Theorem resource_exhausted_resets_backoff (uf : Z -> Work) (err : Z -> JsError)
  (maxAttempts : Z) (w : World) (n : nat) :
  Z.of_nat n < maxAttempts ->
  (forall a, 0 <= a < Z.of_nat n -> fails_attempt env (uf a) (err a)) ->
  (forall a, 0 <= a < Z.of_nat n -> isRetryableTransactionError (err a) = true) ->
  exists s w' ext rest,
    runTransaction env uf maxAttempts w = Some (s, w')
    /\ trace w' = trace w ++ ext
    /\ backoff_calls ext = [BWait; BBegin] ++ retry_calls err 0 n ++ rest
    /\ waits_precede_begins rest = true.
Proof.
  intros HM HF HC.
  destruct (retry_backoff uf err maxAttempts n (S (Z.to_nat maxAttempts)) 0 None w)
    as (s & w' & ks & bs & E & (ext & T & _ & B) & W);
    [lia|lia|intros a Ha; apply HF; lia|intros a Ha; apply HC; lia|].
  exists s, w', ext, bs. auto.
Qed.

(** C8.  When the callback hands back a value that is not a promise (and
    begin and rollback succeed), [runTransaction] rejects with the plain
    [Error] "You must return a Promise in your transaction()-callback.",
    after one begin and one rollback and without any commit. *)
Theorem plain_return_rejected (uf : Z -> Work) (maxAttempts : Z)
  (w : World) (v : JsValue) :
  1 <= maxAttempts ->
  (forall w, fst (run_work env (uf 0) w) = Normal (NotAPromise v)) ->
  exists w' ext,
    runTransaction env uf maxAttempts w =
      Some (Rejects (Some (new_Error
              "You must return a Promise in your transaction()-callback.")), w')
    /\ trace w' = trace w ++ ext
    /\ rpc_kinds ext = [KBegin; KRollback].
Proof.
  intros HM HF.
  destruct (attempt_body_catch env uf 0 None (new_Error NOT_A_PROMISE_MSG)
              (Fulfilled tt) [] begin_ok (try_block_not_a_promise env uf 0 v HF)
              rollback_ok w)
    as (w1 & E & (ext & T & K & _)).
  exists w1, ext. repeat split; try assumption.
  unfold runTransaction. rewrite attempts_turn by lia. rewrite E. reflexivity.
Qed.

End WorkingServer.

Lemma env_ok_begins : begin_succeeds env_ok.
Proof. intros tr. eexists. reflexivity. Qed.

Lemma env_ok_rolls_back : rollback_succeeds env_ok.
Proof. intros tr. reflexivity. Qed.

Lemma unavailable_three_attempts_witness :
  exists w' ext,
    runTransaction env_ok always_unavailable 3 w0
      = Some (Rejects (Some (unavailable_error 2)), w')
    /\ trace w' = trace w0 ++ ext
    /\ rpc_kinds ext = [KBegin; KRollback; KBegin; KRollback; KBegin; KRollback].
Proof.
  apply (unavailable_three_attempts env_ok env_ok_begins env_ok_rolls_back
           always_unavailable unavailable_error w0).
  - intros a w. right. reflexivity.
  - intros a. reflexivity.
Defined.

Lemma retry_classification_witness :
  (forall e' : JsError,
      isRetryableTransactionError e' =
        match code e' with
        | Some c =>
            if in_dec Status_eq_dec c
                 [ABORTED; CANCELLED; UNKNOWN; DEADLINE_EXCEEDED;
                  INTERNAL; UNAVAILABLE; UNAUTHENTICATED; RESOURCE_EXHAUSTED]
            then true else false
        | None => false
        end)
  /\ exists s w' ext commits,
       runTransaction env_ok always_aborted 3 w0 = Some (s, w')
       /\ trace w' = trace w0 ++ ext
       /\ (commits = [] \/ commits = [KCommit])
       /\ exists rest,
            rpc_kinds ext
            = cycles 1 ++ KBegin :: commits ++ KRollback :: KBegin :: rest.
Proof.
  apply (retry_classification env_ok env_ok_begins env_ok_rolls_back
           always_aborted (fun _ => aborted_error) 3 w0 1%nat aborted_error).
  - lia.
  - intros a w Ha. right. reflexivity.
  - intros a Ha. reflexivity.
  - apply fails_in_callback. intros w. right. reflexivity.
Defined.

Lemma resource_exhausted_resets_backoff_witness :
  exists s w' ext rest,
    runTransaction env_ok alternating 5 w0 = Some (s, w')
    /\ trace w' = trace w0 ++ ext
    /\ backoff_calls ext
       = [BWait; BBegin]
           ++ [BResetToMax; BWait; BBegin; BWait; BBegin; BResetToMax; BWait; BBegin]
           ++ rest
    /\ waits_precede_begins rest = true.
Proof.
  apply (resource_exhausted_resets_backoff env_ok env_ok_begins env_ok_rolls_back
           alternating alternating_error 5 w0 3%nat).
  - lia.
  - intros a Ha. apply fails_in_callback. intros w. right. reflexivity.
  - intros a Ha. unfold alternating_error. destruct (Z.even a); reflexivity.
Defined.

Lemma plain_return_rejected_witness :
  exists w' ext,
    runTransaction env_ok returns_plain 4 w0 =
      Some (Rejects (Some (new_Error
              "You must return a Promise in your transaction()-callback.")), w')
    /\ trace w' = trace w0 ++ ext
    /\ rpc_kinds ext = [KBegin; KRollback].
Proof.
  apply (plain_return_rejected env_ok env_ok_begins env_ok_rolls_back
           returns_plain 4 w0 (VNumber 5)).
  - lia.
  - intros w. reflexivity.
Defined.

(** ** Rollback failures *)

(** C4 (as amended).  When an attempt fails with a triggering error [e] and
    the rollback RPC succeeds, the outcome of the attempt is decided by [e]
    alone: retry if [e] is retryable, rejection with [e] otherwise.  When
    the rollback RPC itself fails, the rejection of the awaited rollback
    leaves the [catch] clause and [runTransaction] rejects with the rollback
    error, without a retry. *)
Theorem rollback_outcome (env : Env) (uf : Z -> Work) (attempt : Z)
  (lastError : option JsError) (w : World) (e : JsError) (rb : Promise unit) :
  begin_succeeds env ->
  fails_attempt env (uf attempt) e ->
  (forall tr, request_rollback env tr = rb) ->
  fst (attempt_body env uf attempt lastError w) =
    match rb with
    | Fulfilled _ =>
        if isRetryableTransactionError e then Next e else Done (Rejects (Some e))
    | Rejected r => Done (Rejects (Some r))
    end.
Proof.
  intros HB HF HR.
  destruct (try_block_fails env uf attempt e HF) as (commits & _ & HT).
  destruct (attempt_body_catch env uf attempt lastError e rb commits HB HT HR w)
    as (w1 & -> & _).
  reflexivity.
Qed.

Lemma rollback_outcome_witness :
  fst (attempt_body env_rollback_fails always_aborted 0 None w0) =
    Done (Rejects (Some rollback_error)).
Proof.
  apply (rollback_outcome env_rollback_fails always_aborted 0 None w0
           aborted_error (Rejected rollback_error)).
  - intros tr. eexists. reflexivity.
  - apply fails_in_callback. intros w. right. reflexivity.
  - intros tr. reflexivity.
Defined.

(** C4 as stated fails: the callback rejects with a retryable ABORTED error
    and three attempts are allowed, yet a failing rollback makes
    [runTransaction] reject after one cycle with the rollback error, which
    is not the triggering error. *)
Lemma rollback_error_replaces_trigger :
  fails_attempt env_rollback_fails (always_aborted 0) aborted_error
  /\ isRetryableTransactionError aborted_error = true
  /\ (exists w',
        runTransaction env_rollback_fails always_aborted 3 w0
          = Some (Rejects (Some rollback_error), w')
        /\ rpc_kinds (trace w') = [KBegin; KRollback])
  /\ rollback_error <> aborted_error.
Proof.
  split; [|split; [|split]].
  - apply fails_in_callback. intros w. right. reflexivity.
  - reflexivity.
  - eexists. split; reflexivity.
  - discriminate.
Qed.

(** ** Backoff *)

(** Whenever [runTransaction] makes at least one attempt, the backoff
    policy's [backoffAndWait] is called before every attempt, the first one
    included: among the backoff calls and begins of the run, each begin
    comes right after a call of [backoffAndWait], and the first of these
    calls is not preceded by a reset of the policy. *)
Lemma backoff_before_every_attempt (env : Env) (uf : Z -> Work) (maxAttempts : Z)
  (w : World) :
  1 <= maxAttempts ->
  exists s w' ext rest,
    runTransaction env uf maxAttempts w = Some (s, w')
    /\ trace w' = trace w ++ ext
    /\ backoff_calls ext = BWait :: BBegin :: rest
    /\ waits_precede_begins rest = true.
Proof.
  intros HM.
  destruct (attempts_backoff env uf maxAttempts (S (Z.to_nat maxAttempts)) 0 None w)
    as (s & w' & ks & bs & E & (ext & T & _ & B) & W & R); [rewrite Z.sub_0_r; lia|].
  destruct R as (rest & ->); [lia|].
  exists s, w', ext, rest. repeat split; assumption.
Qed.

Lemma backoff_before_every_attempt_witness :
  exists s w' ext rest,
    runTransaction env_ok exhausted_then_ok 3 w0 = Some (s, w')
    /\ trace w' = trace w0 ++ ext
    /\ backoff_calls ext = BWait :: BBegin :: rest
    /\ waits_precede_begins rest = true.
Proof.
  apply (backoff_before_every_attempt env_ok exhausted_then_ok 3 w0). lia.
Defined.

(** With a single attempt that succeeds, the first call that leaves the
    transaction is [backoffAndWait], made before the first (and only)
    begin; how long it lasts is the policy's matter. *)
Lemma first_attempt_waits :
  exists w' rest,
    runTransaction env_ok sets_and_resolves 1 w0 = Some (Resolves (VNumber 7), w')
    /\ trace w' = EvBackoffAndWait :: EvBeginTransaction None "tag" :: rest
    /\ rpc_kinds (trace w') = [KBegin; KCommit].
Proof. do 2 eexists. repeat split. Qed.

Lemma next_interval_positive (cfg : BackoffConfig) (currentBaseMs : Z) :
  0 < initialDelayMs cfg -> initialDelayMs cfg <= maxDelayMs cfg ->
  0 < next_interval cfg currentBaseMs.
Proof.
  intros HI HM. unfold next_interval.
  generalize (currentBaseMs * backoffFactor cfg). intros x. lia.
Qed.

(** Once the interval of the policy is positive, every wait is. *)
Lemma wait_delays_positive (cfg : BackoffConfig) (calls : list BackoffCall) :
  0 < initialDelayMs cfg -> initialDelayMs cfg <= maxDelayMs cfg ->
  forall currentBaseMs,
    0 < currentBaseMs ->
    Forall (fun d => 0 < d) (wait_delays cfg currentBaseMs calls).
Proof.
  intros HI HM.
  induction calls as [|c calls IH]; intros cur Hc; simpl; [constructor|].
  destruct c.
  - apply IH. lia.
  - constructor; [exact Hc|]. apply IH, next_interval_positive; assumption.
  - apply IH, Hc.
Qed.

(** C5.  For a transaction whose backoff policy is new, and a policy whose
    initial delay is positive and not above its maximum: whenever
    [runTransaction] makes at least one attempt, the wait that precedes the
    first begin has length zero (it is asked of the new policy, with no
    reset to the maximum before it), and every later wait of the run, each
    of which precedes the begin of a later attempt, has a positive
    length. *)
Theorem first_attempt_never_waits (env : Env) (uf : Z -> Work) (maxAttempts : Z)
  (w : World) (cfg : BackoffConfig) :
  1 <= maxAttempts ->
  0 < initialDelayMs cfg ->
  initialDelayMs cfg <= maxDelayMs cfg ->
  exists s w' ext calls later,
    runTransaction env uf maxAttempts w = Some (s, w')
    /\ trace w' = trace w ++ ext
    /\ backoff_calls ext = BWait :: BBegin :: calls
    /\ waits_precede_begins calls = true
    /\ wait_delays cfg 0 (backoff_calls ext) = 0 :: later
    /\ Forall (fun d => 0 < d) later.
Proof.
  intros HM HI HX.
  destruct (attempts_backoff env uf maxAttempts (S (Z.to_nat maxAttempts)) 0 None w)
    as (s & w' & ks & bs & E & (ext & T & _ & B) & W & R); [rewrite Z.sub_0_r; lia|].
  destruct R as (calls & ->); [lia|].
  exists s, w', ext, calls, (wait_delays cfg (next_interval cfg 0) calls).
  split; [exact E|]. split; [exact T|]. split; [exact B|]. split; [exact W|].
  split; [rewrite B; reflexivity|].
  apply wait_delays_positive; try assumption.
  apply next_interval_positive; assumption.
Qed.

Lemma first_attempt_never_waits_witness :
  exists s w' ext calls later,
    runTransaction env_ok alternating 3 w0 = Some (s, w')
    /\ trace w' = trace w0 ++ ext
    /\ backoff_calls ext = BWait :: BBegin :: calls
    /\ waits_precede_begins calls = true
    /\ wait_delays example_backoff 0 (backoff_calls ext) = 0 :: later
    /\ Forall (fun d => 0 < d) later.
Proof.
  apply (first_attempt_never_waits env_ok alternating 3 w0 example_backoff).
  - lia.
  - reflexivity.
  - discriminate.
Defined.

(** On the example policy, the waits of three attempts that fail with
    ABORTED last 0, 1000 and 2000 ms; when the first attempt fails with
    RESOURCE_EXHAUSTED instead, the second wait lasts the maximum. *)
Example waits_of_three_attempts :
  (exists w',
      runTransaction env_ok always_aborted 3 w0 = Some (Rejects (Some aborted_error), w')
      /\ wait_delays example_backoff 0 (backoff_calls (trace w')) = [0; 1000; 2000])
  /\ (exists w',
      runTransaction env_ok alternating 3 w0 = Some (Rejects (Some exhausted_error), w')
      /\ wait_delays example_backoff 0 (backoff_calls (trace w')) = [0; 60000; 60000]).
Proof. split; eexists; split; reflexivity. Qed.

(** ** Arguments of getAll *)

(** C6 (evaluation at the failing input).  [getAll] called with a read
    options object as its only argument passes the check on the number of
    arguments, parses into an empty list of documents, throws nothing and
    calls [getAll_] with no document at all.  Called with no argument it
    does throw, before any call is made. *)
Theorem getAll_options_only (env : Env) :
  getAll env [VObject [("fieldMask", VArray [VString "x"])]] w0
    = (Normal (firestore_getAll_ env
                 [EvGetAll_ [] (Some [FieldPath_ ["x"]]) "tag" None]),
       {| this := tx0;
          trace := [EvGetAll_ [] (Some [FieldPath_ ["x"]]) "tag" None] |})
  /\ exists e, getAll env [] w0 = (Throw e, w0).
Proof. split; [reflexivity|eexists; reflexivity]. Qed.

(** C9.  [parseGetAllArguments] on two references and an options object
    with the mask ["x"] gives the two references in their order and the
    mask [FieldPath("x")]; on the two references alone it gives no mask
    ([null]); with an array as the first argument it throws. *)
Theorem parseGetAllArguments_examples (a b : string) :
  parseGetAllArguments
    [VDocumentReference a; VDocumentReference b;
     VObject [("fieldMask", VArray [VString "x"])]]
    = Normal {| documents := [VDocumentReference a; VDocumentReference b];
                fieldMask := Some [FieldPath_ ["x"]] |}
  /\ parseGetAllArguments [VDocumentReference a; VDocumentReference b]
    = Normal {| documents := [VDocumentReference a; VDocumentReference b];
                fieldMask := None |}
  /\ forall (items rest : list JsValue),
       parseGetAllArguments (VArray items :: rest)
       = Throw (new_Error
           ("getAll() no longer accepts an array as its first argument. "
            ++ "Please unpack your array and call getAll() with individual arguments.")).
Proof. repeat split. Qed.

(** ** No attempt at all *)

(** C10.  With [maxAttempts <= 0] the loop body never runs: nothing is
    called (no backoff, no begin, commit or rollback, no callback), the
    transaction is left as it was, and the promise rejects with the
    [lastError] that was never assigned, [undefined]. *)
Theorem no_attempt_without_budget (env : Env) (uf : Z -> Work) (maxAttempts : Z)
  (w : World) :
  maxAttempts <= 0 ->
  runTransaction env uf maxAttempts w = Some (Rejects None, w).
Proof.
  intros H. unfold runTransaction. apply attempts_exhausted. exact H.
Qed.

Lemma no_attempt_without_budget_witness :
  runTransaction env_ok sets_and_resolves (-2) w0 = Some (Rejects None, w0).
Proof.
  apply (no_attempt_without_budget env_ok sets_and_resolves (-2) w0). lia.
Defined.

(** * Further properties of the code *)

(** ** Reads *)

Lemma get_effect (env : Env) (w : World) (refOrQuery : JsValue) :
  match get env refOrQuery w with
  | (Throw _, w') => w' = w
  | (Normal _, w') =>
      this w' = this w
      /\ exists ev, trace w' = trace w ++ [ev] /\ read_of (this w) ev
  end.
Proof.
  unfold get.
  destruct (negb (isEmpty (this w))); [reflexivity|].
  destruct (instanceof_DocumentReference refOrQuery).
  { split; [reflexivity|]. eexists. split; [reflexivity|]. simpl. auto. }
  destruct (instanceof_Query refOrQuery); [|reflexivity].
  split; [reflexivity|]. eexists. split; [reflexivity|]. reflexivity.
Qed.

Lemma getAll_effect (env : Env) (w : World) (args : list JsValue) :
  match getAll env args w with
  | (Throw _, w') => w' = w
  | (Normal _, w') =>
      this w' = this w
      /\ exists ev, trace w' = trace w ++ [ev] /\ read_of (this w) ev
  end.
Proof.
  unfold getAll.
  destruct (negb (isEmpty (this w))); [reflexivity|].
  destruct (validateMinNumberOfArguments _ _ _); [|reflexivity].
  destruct (parseGetAllArguments args); [|reflexivity].
  split; [reflexivity|]. eexists. split; [reflexivity|]. simpl. auto.
Qed.

(** X1.  A read either throws, and then nothing has happened, or it returns
    a promise after issuing exactly one read that carries the handle of the
    transaction (and, for a batched document read, its request tag; a query
    read is given the handle only); in both cases the transaction object is
    untouched. *)
Theorem read_effect (env : Env) (w : World) :
  (forall refOrQuery,
      match get env refOrQuery w with
      | (Throw _, w') => w' = w
      | (Normal _, w') =>
          this w' = this w
          /\ exists ev, trace w' = trace w ++ [ev] /\ read_of (this w) ev
      end)
  /\ (forall args,
      match getAll env args w with
      | (Throw _, w') => w' = w
      | (Normal _, w') =>
          this w' = this w
          /\ exists ev, trace w' = trace w ++ [ev] /\ read_of (this w) ev
      end).
Proof. split; intros x; [apply get_effect|apply getAll_effect]. Qed.

Lemma read_of_same_session (t t' : Transaction) (ev : Event) :
  _requestTag t' = _requestTag t -> _transactionId t' = _transactionId t ->
  read_of t' ev -> read_of t ev.
Proof.
  intros HT HI. destruct ev; simpl; try tauto; rewrite HT, HI || rewrite HI; tauto.
Qed.

Lemma kept_session_after_read (w w1 w' : World) :
  this w1 = this w ->
  (exists ev, trace w1 = trace w ++ [ev] /\ read_of (this w) ev) ->
  kept_session w1 w' -> kept_session w w'.
Proof.
  unfold kept_session.
  intros HS (ev & E & RO) (T & I & (added & O) & (reads & R & F)).
  rewrite HS in *. repeat split; try assumption.
  - exists added. exact O.
  - exists (ev :: reads). rewrite E, <- app_assoc in R. auto.
Qed.

Lemma run_work_session (env : Env) (wk : Work) :
  forall w, kept_session w (snd (run_work env wk w)).
Proof.
  induction wk as [r|e|r k IH|args k IH|op k IH]; intros w; simpl.
  - unfold kept_session. repeat split; try (exists []; rewrite app_nil_r; auto).
  - unfold kept_session. repeat split; try (exists []; rewrite app_nil_r; auto).
  - pose proof (get_effect env w r) as G.
    destruct (get env r w) as [[p|e] w1].
    + destruct G as (HS & HE). apply (kept_session_after_read w w1); auto.
    + subst w1. apply IH.
  - pose proof (getAll_effect env w args) as G.
    destruct (getAll env args w) as [[p|e] w1].
    + destruct G as (HS & HE). apply (kept_session_after_read w w1); auto.
    + subst w1. apply IH.
  - destruct (IH (record_write op w)) as (T & I & (added & O) & (reads & R & F)).
    unfold kept_session. repeat split; try assumption.
    + exists (op :: added). rewrite O. simpl. rewrite <- app_assoc. reflexivity.
    + exists reads. split; [exact R|].
      eapply Forall_impl; [|exact F]. intros ev.
      apply read_of_same_session; reflexivity.
Qed.

(** X2.  Whatever the callback does, it cannot change the request tag or
    the handle of the transaction; it can only add to the end of the write
    buffer, and all it issues are reads that carry that handle (batched
    document reads carry that tag as well; query reads are given the handle
    only). *)
Theorem callback_keeps_session (env : Env) (wk : Work) (w : World) :
  _requestTag (this (snd (run_work env wk w))) = _requestTag (this w)
  /\ _transactionId (this (snd (run_work env wk w))) = _transactionId (this w)
  /\ (exists added, _ops (this (snd (run_work env wk w))) = _ops (this w) ++ added)
  /\ (exists reads, trace (snd (run_work env wk w)) = trace w ++ reads
                    /\ Forall (read_of (this w)) reads).
Proof. exact (run_work_session env wk w). Qed.

(** ** The shape of a run *)

Lemma phases_app (a b : list Event) : phases (a ++ b) = phases a ++ phases b.
Proof.
  induction a as [|ev a IH]; simpl; [reflexivity|].
  destruct ev; simpl; rewrite IH; reflexivity.
Qed.

Lemma reads_show_nothing (t : Transaction) (reads : list Event) :
  Forall (read_of t) reads -> phases reads = [].
Proof.
  induction 1 as [|ev reads R _ IH]; [reflexivity|].
  destruct ev; simpl in *; try contradiction; exact IH.
Qed.

Lemma shows_refl (w : World) : shows w w [].
Proof. exists []. rewrite app_nil_r. auto. Qed.

Lemma shows_trans (w1 w2 w3 : World) (ps1 ps2 : list Phase) :
  shows w1 w2 ps1 -> shows w2 w3 ps2 -> shows w1 w3 (ps1 ++ ps2).
Proof.
  intros (e1 & H1 & P1) (e2 & H2 & P2).
  exists (e1 ++ e2). rewrite H2, H1, <- app_assoc, phases_app, P1, P2. auto.
Qed.

Lemma shows_emit (ev : Event) (w : World) : shows w (emit ev w) (phases [ev]).
Proof. exists [ev]. auto. Qed.

Lemma run_work_shows (env : Env) (wk : Work) (w : World) :
  shows w (snd (run_work env wk w)) [].
Proof.
  destruct (run_work_session env wk w) as (_ & _ & _ & (reads & R & F)).
  exists reads. split; [exact R|]. apply (reads_show_nothing (this w)), F.
Qed.

(** The [try] block shows the callback and, when it got that far, the
    commit; it fulfils only after a commit. *)
Lemma try_block_shows (env : Env) (uf : Z -> Work) (a : Z) (w : World) :
  match try_block env uf a w with
  | (Fulfilled _, w') => shows w w' [PCallback; PCommit]
  | (Rejected _, w') => shows w w' [PCallback] \/ shows w w' [PCallback; PCommit]
  end.
Proof.
  unfold try_block.
  pose proof (run_work_shows env (uf a) (emit (EvUpdateFunction a) w)) as X.
  pose proof (shows_trans _ _ _ _ _ (shows_emit (EvUpdateFunction a) w) X) as X'.
  simpl in X'.
  destruct (run_work env (uf a) (emit (EvUpdateFunction a) w)) as [c w1].
  simpl in X'.
  destruct c as [[v|[v|e]]|e]; auto.
  unfold commit.
  pose proof (shows_trans _ _ _ _ _ X'
                (shows_emit (EvCommit (_transactionId (this w1))
                               (_requestTag (this w1)) (_ops (this w1))) w1)) as X2.
  destruct (request_commit env _); simpl in X2 |- *; auto.
Qed.

Lemma attempt_body_shows (env : Env) (uf : Z -> Work) (a : Z)
  (lastError : option JsError) (w : World) :
  exists ps,
    shows w (snd (attempt_body env uf a lastError w)) ps
    /\ attempt_phases_ok (fst (attempt_body env uf a lastError w)) ps.
Proof.
  unfold attempt_body, maybeBackoff.
  set (w0 := match lastError with
             | Some e => if code_is RESOURCE_EXHAUSTED e
                         then emit EvResetToMax (_reset w) else _reset w
             | None => _reset w
             end).
  assert (shows w w0 []) as X0.
  { subst w0. destruct lastError as [e|]; [destruct (code_is _ e)|].
    - exists [EvResetToMax]. auto.
    - exists []. rewrite app_nil_r. auto.
    - exists []. rewrite app_nil_r. auto. }
  pose proof (shows_trans _ _ _ _ _ X0 (shows_emit EvBackoffAndWait w0)) as X1.
  simpl in X1. set (w1 := emit EvBackoffAndWait w0) in *.
  assert (shows w (snd (begin env w1)) [PWait; PBegin]) as XB.
  { apply (shows_trans _ _ _ [PWait] [PBegin] X1). unfold begin.
    destruct (request_beginTransaction env _); simpl;
      exists [EvBeginTransaction (_transactionId (this w1)) (_requestTag (this w1))];
      auto. }
  destruct (begin env w1) as [[u|e] w2]; simpl in XB.
  2:{ exists [PWait; PBegin]. simpl. auto. }
  pose proof (try_block_shows env uf a w2) as XT.
  destruct (try_block env uf a w2) as [[result|err] w3].
  - exists [PWait; PBegin; PCallback; PCommit]. simpl. split; [|reflexivity].
    apply (shows_trans _ _ _ _ _ XB XT).
  - assert (forall ps, shows w2 w3 ps ->
              shows w (snd (rollback env w3)) ([PWait; PBegin] ++ ps ++ [PRollback]))
      as XR.
    { intros ps X. apply (shows_trans _ _ _ _ _ XB).
      apply (shows_trans _ _ _ _ _ X). apply shows_emit. }
    destruct (rollback env w3) as [[u'|e'] w4]; simpl in XR |- *.
    + destruct XT as [X|X]; apply XR in X; simpl in X;
        destruct (isRetryableTransactionError err); eexists; (split; [exact X|]);
        simpl; auto.
    + destruct XT as [X|X]; apply XR in X; simpl in X;
        eexists; (split; [exact X|]); simpl; auto.
Qed.

Lemma attempts_shows (env : Env) (uf : Z -> Work) (maxAttempts : Z) :
  forall (fuel : nat) (attempt : Z) (lastError : option JsError) (w : World),
    (Z.to_nat (maxAttempts - attempt) < fuel)%nat ->
    exists s w' ps,
      attempts fuel env uf maxAttempts attempt lastError w = Some (s, w')
      /\ shows w w' ps
      /\ attempts_shape ps = true
      /\ (count_begins ps <= Z.to_nat (maxAttempts - attempt))%nat
      /\ settles_as s ps.
Proof.
  induction fuel as [|fuel IH]; intros attempt lastError w Hf; [lia|].
  destruct (Z.lt_ge_cases attempt maxAttempts) as [Hlt|Hge].
  - rewrite attempts_turn by assumption.
    destruct (attempt_body_shows env uf attempt lastError w) as (ps & X & OK).
    destruct (attempt_body env uf attempt lastError w) as [[s|err] w1];
      simpl in X, OK.
    + exists s, w1, ps. split; [reflexivity|]. split; [exact X|].
      assert (1 <= Z.to_nat (maxAttempts - attempt))%nat as H1 by lia.
      destruct s as [v|r]; simpl in OK.
      * subst ps. split; [reflexivity|]. split; [exact H1|].
        exists []. reflexivity.
      * destruct OK as [->|[->| ->]];
          (split; [reflexivity|]); (split; [exact H1|]); right.
        -- exists [PWait]. auto.
        -- exists [PWait; PBegin; PCallback]. auto.
        -- exists [PWait; PBegin; PCallback; PCommit]. auto.
    + destruct (IH (attempt + 1) (Some err) w1) as (s & w' & ps' & E & X' & HSh & C & L);
        [lia|].
      exists s, w', (ps ++ ps'). split; [exact E|].
      split; [apply (shows_trans _ _ _ _ _ X X')|].
      assert (attempts_shape (ps ++ ps') = attempts_shape ps'
              /\ count_begins (ps ++ ps') = S (count_begins ps')
              /\ exists q, ps = q ++ [PRollback]) as (HS & HC & (q & HQ)).
      { destruct OK as [->| ->]; (split; [reflexivity|]); (split; [reflexivity|]).
        - exists [PWait; PBegin; PCallback]. reflexivity.
        - exists [PWait; PBegin; PCallback; PCommit]. reflexivity. }
      rewrite HS, HC. split; [exact HSh|]. split; [lia|].
      destruct s as [v|r]; simpl in L |- *.
      * destruct L as (pre & ->). exists (ps ++ pre). rewrite app_assoc. reflexivity.
      * right. destruct L as [->|(pre & [->| ->])].
        -- exists q. right. rewrite app_nil_r. exact HQ.
        -- exists (ps ++ pre). left. rewrite app_assoc. reflexivity.
        -- exists (ps ++ pre). right. rewrite app_assoc. reflexivity.
  - rewrite attempts_exhausted by assumption.
    exists (Rejects lastError), w, [].
    split; [reflexivity|]. split; [apply shows_refl|]. split; [reflexivity|].
    split; [unfold count_begins; simpl; lia|]. simpl. auto.
Qed.

(** X3.  With an integer budget, a run never issues more than
    [maxAttempts] begins, however the server answers and whatever the
    callback does (and none at all when [maxAttempts] is not positive). *)
Theorem attempts_within_budget (env : Env) (uf : Z -> Work) (maxAttempts : Z)
  (w : World) :
  exists s w' ext,
    runTransaction env uf maxAttempts w = Some (s, w')
    /\ trace w' = trace w ++ ext
    /\ (count_begins (phases ext) <= Z.to_nat maxAttempts)%nat.
Proof.
  destruct (attempts_shows env uf maxAttempts (S (Z.to_nat maxAttempts)) 0 None w)
    as (s & w' & ps & E & (ext & T & P) & _ & C & _); [rewrite Z.sub_0_r; lia|].
  exists s, w', ext. rewrite P. rewrite Z.sub_0_r in C. auto.
Qed.

(** X4.  Every run is a chain of attempts, one after the other: each
    attempt waits, begins, calls the callback once, may commit, and is
    rolled back before the next one waits; only the last attempt may end
    right after its begin (which failed) or after its commit. *)
Theorem run_is_chain_of_attempts (env : Env) (uf : Z -> Work) (maxAttempts : Z)
  (w : World) :
  exists s w' ext,
    runTransaction env uf maxAttempts w = Some (s, w')
    /\ trace w' = trace w ++ ext
    /\ attempts_shape (phases ext) = true.
Proof.
  destruct (attempts_shows env uf maxAttempts (S (Z.to_nat maxAttempts)) 0 None w)
    as (s & w' & ps & E & (ext & T & P) & S' & _); [rewrite Z.sub_0_r; lia|].
  exists s, w', ext. rewrite P. auto.
Qed.

(** X5.  The promise resolves only when the last thing the run did was an
    attempt that went through begin, callback and commit; when it rejects,
    the run did nothing at all or ended on a begin or on a rollback. *)
Theorem settlement_follows_last_call (env : Env) (uf : Z -> Work) (maxAttempts : Z)
  (w : World) :
  exists s w' ext,
    runTransaction env uf maxAttempts w = Some (s, w')
    /\ trace w' = trace w ++ ext
    /\ match s with
       | Resolves _ =>
           exists pre, phases ext = pre ++ [PWait; PBegin; PCallback; PCommit]
       | Rejects _ =>
           phases ext = []
           \/ exists pre, phases ext = pre ++ [PBegin] \/ phases ext = pre ++ [PRollback]
       end.
Proof.
  destruct (attempts_shows env uf maxAttempts (S (Z.to_nat maxAttempts)) 0 None w)
    as (s & w' & ps & E & (ext & T & P) & _ & _ & L); [rewrite Z.sub_0_r; lia|].
  exists s, w', ext. rewrite P. auto.
Qed.

(** ** Calls are scoped to the session *)

Lemma handle_after_app (env : Env) (a b : list Event) :
  forall pre h,
    handle_after env pre h (a ++ b)
    = handle_after env (pre ++ a) (handle_after env pre h a) b.
Proof.
  induction a as [|ev a IH]; intros pre h; simpl.
  - rewrite app_nil_r. reflexivity.
  - rewrite IH, <- app_assoc. reflexivity.
Qed.

Lemma scoped_app (env : Env) (tag : string) (a b : list Event) :
  forall pre h,
    scoped env tag pre h a ->
    scoped env tag (pre ++ a) (handle_after env pre h a) b ->
    scoped env tag pre h (a ++ b).
Proof.
  induction a as [|ev a IH]; intros pre h A B; simpl in *.
  - rewrite app_nil_r in B. exact B.
  - destruct A as (A1 & A2). split; [exact A1|].
    apply IH; [exact A2|]. rewrite <- app_assoc. exact B.
Qed.

Lemma session_step_refl (env : Env) (w : World) : session_step env w w.
Proof.
  split; [reflexivity|]. exists []. rewrite app_nil_r. simpl. auto.
Qed.

Lemma session_step_trans (env : Env) (w1 w2 w3 : World) :
  session_step env w1 w2 -> session_step env w2 w3 -> session_step env w1 w3.
Proof.
  intros (T1 & e1 & E1 & S1 & H1) (T2 & e2 & E2 & S2 & H2).
  split; [congruence|]. exists (e1 ++ e2).
  rewrite T1, E1, H1 in *. split; [|split].
  - rewrite E2, app_assoc. reflexivity.
  - apply scoped_app; assumption.
  - rewrite H2, handle_after_app. reflexivity.
Qed.

Lemma session_step_same_trace (env : Env) (w w' : World) :
  trace w' = trace w ->
  _requestTag (this w') = _requestTag (this w) ->
  _transactionId (this w') = _transactionId (this w) ->
  session_step env w w'.
Proof.
  intros T G I. split; [exact G|]. exists []. rewrite app_nil_r. simpl. auto.
Qed.

Lemma session_step_emit (env : Env) (ev : Event) (w : World) :
  scoped env (_requestTag (this w)) (trace w) (_transactionId (this w)) [ev] ->
  next_handle env (trace w ++ [ev]) (_transactionId (this w)) ev
    = _transactionId (this w) ->
  session_step env w (emit ev w).
Proof.
  intros S N. split; [reflexivity|]. exists [ev]. simpl. rewrite N. auto.
Qed.

Lemma reads_scoped (env : Env) (t : Transaction) (reads : list Event) :
  Forall (read_of t) reads ->
  forall pre,
    scoped env (_requestTag t) pre (_transactionId t) reads
    /\ handle_after env pre (_transactionId t) reads = _transactionId t.
Proof.
  induction 1 as [|ev reads R _ IH]; intros pre; simpl; [auto|].
  destruct ev; simpl in R |- *; try contradiction.
  - destruct R as (-> & ->). destruct (IH (pre ++ [EvGetAll_ docs mask (_requestTag t) (_transactionId t)])). auto.
  - subst. destruct (IH (pre ++ [EvQueryGet query (_transactionId t)])). auto.
Qed.

Lemma run_work_session_step (env : Env) (wk : Work) (w : World) :
  session_step env w (snd (run_work env wk w)).
Proof.
  destruct (run_work_session env wk w) as (T & I & _ & (reads & R & F)).
  destruct (reads_scoped env (this w) reads F (trace w)) as (S & H).
  split; [exact T|]. exists reads. rewrite I, H. auto.
Qed.

Lemma begin_session_step (env : Env) (w : World) :
  session_step env w (snd (begin env w)).
Proof.
  unfold begin. simpl.
  destruct (request_beginTransaction env
              (trace w ++ [EvBeginTransaction (_transactionId (this w))
                             (_requestTag (this w))])) as [t|e] eqn:R;
    (split; [reflexivity|]);
    exists [EvBeginTransaction (_transactionId (this w)) (_requestTag (this w))];
    simpl; rewrite R; auto.
Qed.

Lemma try_block_session_step (env : Env) (uf : Z -> Work) (a : Z) (w : World) :
  session_step env w (snd (try_block env uf a w)).
Proof.
  unfold try_block.
  assert (session_step env w (emit (EvUpdateFunction a) w)) as X0
      by (apply session_step_emit; simpl; auto).
  pose proof (session_step_trans _ _ _ _ X0
                (run_work_session_step env (uf a) (emit (EvUpdateFunction a) w))) as X.
  destruct (run_work env (uf a) (emit (EvUpdateFunction a) w)) as [c w1].
  simpl in X.
  destruct c as [[v|[v|e]]|e]; try exact X.
  unfold commit.
  assert (session_step env w
            (emit (EvCommit (_transactionId (this w1)) (_requestTag (this w1))
                     (_ops (this w1))) w1)) as XC.
  { apply (session_step_trans _ _ _ _ X). apply session_step_emit; simpl; auto. }
  destruct (request_commit env _); exact XC.
Qed.

Lemma attempt_body_session_step (env : Env) (uf : Z -> Work) (a : Z)
  (lastError : option JsError) (w : World) :
  session_step env w (snd (attempt_body env uf a lastError w)).
Proof.
  unfold attempt_body, maybeBackoff.
  set (w0 := match lastError with
             | Some e => if code_is RESOURCE_EXHAUSTED e
                         then emit EvResetToMax (_reset w) else _reset w
             | None => _reset w
             end).
  assert (session_step env w (_reset w)) as XR
      by (apply session_step_same_trace; reflexivity).
  assert (session_step env w w0) as X0.
  { subst w0. destruct lastError as [e|]; [destruct (code_is _ e)|]; try exact XR.
    apply (session_step_trans _ _ _ _ XR). apply session_step_emit; simpl; auto. }
  assert (session_step env w (emit EvBackoffAndWait w0)) as X1.
  { apply (session_step_trans _ _ _ _ X0). apply session_step_emit; simpl; auto. }
  pose proof (session_step_trans _ _ _ _ X1
                (begin_session_step env (emit EvBackoffAndWait w0))) as XB.
  destruct (begin env (emit EvBackoffAndWait w0)) as [[u|e] w2]; simpl in XB;
    [|exact XB].
  pose proof (session_step_trans _ _ _ _ XB (try_block_session_step env uf a w2)) as XT.
  destruct (try_block env uf a w2) as [[result|err] w3]; simpl in XT; [exact XT|].
  assert (session_step env w (snd (rollback env w3))) as X4.
  { apply (session_step_trans _ _ _ _ XT). unfold rollback. simpl.
    apply session_step_emit; simpl; auto. }
  destruct (rollback env w3) as [[u'|e'] w4]; simpl in X4 |- *; [|exact X4].
  destruct (isRetryableTransactionError err); exact X4.
Qed.

Lemma attempts_session_step (env : Env) (uf : Z -> Work) (maxAttempts : Z) :
  forall (fuel : nat) (attempt : Z) (lastError : option JsError) (w : World)
         (s : Settlement) (w' : World),
    attempts fuel env uf maxAttempts attempt lastError w = Some (s, w') ->
    session_step env w w'.
Proof.
  induction fuel as [|fuel IH]; intros attempt lastError w s w' E; [discriminate|].
  simpl in E. destruct (attempt <? maxAttempts).
  - pose proof (attempt_body_session_step env uf attempt lastError w) as X.
    destruct (attempt_body env uf attempt lastError w) as [[s1|err] w1]; simpl in X.
    + injection E as <- <-. exact X.
    + apply (session_step_trans _ _ _ _ X). apply (IH _ _ _ _ _ E).
  - injection E as <- <-. apply session_step_refl.
Qed.

(** X6.  Throughout a run the transaction keeps its request tag, and every
    call it issues is scoped to the handle it holds at that moment: reads,
    commit and rollback carry the handle of the latest begin that
    succeeded, and each begin carries that handle as its retry hint.  At
    the end the transaction holds the handle of the last successful
    begin. *)
Theorem calls_scoped_to_session (env : Env) (uf : Z -> Work) (maxAttempts : Z)
  (w : World) :
  exists s w' ext,
    runTransaction env uf maxAttempts w = Some (s, w')
    /\ _requestTag (this w') = _requestTag (this w)
    /\ trace w' = trace w ++ ext
    /\ scoped env (_requestTag (this w)) (trace w) (_transactionId (this w)) ext
    /\ _transactionId (this w')
       = handle_after env (trace w) (_transactionId (this w)) ext.
Proof.
  destruct (runTransaction_settles env uf maxAttempts w) as (s & w' & E).
  destruct (attempts_session_step env uf maxAttempts _ _ _ _ _ _ E)
    as (T & ext & X & S & H).
  exists s, w', ext. auto.
Qed.

(** The predicate is not vacuous: a rollback that still carried no handle
    after a begin that succeeded would not pass. *)
Example scoped_rejects_a_stale_handle :
  ~ scoped env_ok "tag" [] None [EvBeginTransaction None "tag"; EvRollback None "tag"].
Proof. simpl. intros (_ & (H & _) & _). discriminate. Qed.

(** ** Begin failures *)

(** X7.  When the begin RPC fails, [runTransaction] rejects with that error
    at once, even if its code is a retryable one: after the wait and the
    begin nothing else is issued (no rollback, no second begin) and the
    callback is not invoked. *)
Theorem begin_failure_rejects_at_once (env : Env) (uf : Z -> Work) (maxAttempts : Z)
  (w : World) (e : JsError) :
  1 <= maxAttempts ->
  (forall tr, request_beginTransaction env tr = Rejected e) ->
  runTransaction env uf maxAttempts w =
    Some (Rejects (Some e),
          {| this := this (_reset w);
             trace := trace w ++ [EvBackoffAndWait;
                                  EvBeginTransaction (_transactionId (this w))
                                    (_requestTag (this w))] |}).
Proof.
  intros HM HB. unfold runTransaction. rewrite attempts_turn by lia.
  unfold attempt_body, maybeBackoff, begin. simpl. rewrite HB.
  unfold emit. simpl. rewrite <- app_assoc. reflexivity.
Qed.

Lemma begin_failure_rejects_at_once_witness :
  runTransaction env_begin_fails sets_and_resolves 3 w0 =
    Some (Rejects (Some begin_error),
          {| this := this (_reset w0);
             trace := trace w0 ++ [EvBackoffAndWait;
                                   EvBeginTransaction (_transactionId (this w0))
                                     (_requestTag (this w0))] |}).
Proof.
  apply (begin_failure_rejects_at_once env_begin_fails sets_and_resolves 3 w0 begin_error).
  - lia.
  - intros tr. reflexivity.
Defined.

(** ** What is committed *)

Lemma run_work_writes_then (env : Env) (ops : list WriteOp) (r : Returned) :
  forall w,
    run_work env (writes_then ops r) w =
      (Normal r,
       {| this := {| _requestTag := _requestTag (this w);
                     _transactionId := _transactionId (this w);
                     _ops := _ops (this w) ++ ops |};
          trace := trace w |}).
Proof.
  induction ops as [|op ops IH]; intros w; simpl.
  - rewrite app_nil_r. destruct w as [[tag id ops0] tr]. reflexivity.
  - rewrite IH. simpl. rewrite <- app_assoc. reflexivity.
Qed.

(** X8.  A callback that records the writes [ops] and resolves gets exactly
    these writes committed, in the order they were recorded and under the
    handle the begin returned, whatever the write buffer held before the
    run; the promise resolves with the callback's result. *)
Theorem commit_carries_recorded_writes (env : Env) (uf : Z -> Work)
  (maxAttempts : Z) (w : World) (ops : list WriteOp) (v : JsValue)
  (transaction : Uint8Array) :
  1 <= maxAttempts ->
  uf 0 = writes_then ops (APromise (Fulfilled v)) ->
  request_beginTransaction env
    (trace w ++ [EvBackoffAndWait;
                 EvBeginTransaction (_transactionId (this w)) (_requestTag (this w))])
    = Fulfilled transaction ->
  commit_succeeds env ->
  runTransaction env uf maxAttempts w =
    Some (Resolves v,
          {| this := {| _requestTag := _requestTag (this w);
                        _transactionId := Some transaction;
                        _ops := ops |};
             trace := trace w ++ [EvBackoffAndWait;
                                  EvBeginTransaction (_transactionId (this w))
                                    (_requestTag (this w));
                                  EvUpdateFunction 0;
                                  EvCommit (Some transaction) (_requestTag (this w)) ops]
          |}).
Proof.
  intros HM HU HB HC. unfold runTransaction. rewrite attempts_turn by lia.
  unfold attempt_body, maybeBackoff, begin. simpl.
  rewrite <- app_assoc. simpl. rewrite HB.
  unfold try_block. rewrite HU, run_work_writes_then. simpl.
  unfold commit. simpl. rewrite HC. unfold emit. simpl.
  rewrite <- !app_assoc. reflexivity.
Qed.

Lemma commit_carries_recorded_writes_witness :
  runTransaction env_ok sets_and_resolves 2
    (record_write (WDelete (doc "col/old")) w0) =
    Some (Resolves (VNumber 7),
          {| this := {| _requestTag := "tag";
                        _transactionId := Some [Byte.x01];
                        _ops := [WSet (doc "col/a") (VNumber 1)] |};
             trace := [EvBackoffAndWait;
                       EvBeginTransaction None "tag";
                       EvUpdateFunction 0;
                       EvCommit (Some [Byte.x01]) "tag"
                         [WSet (doc "col/a") (VNumber 1)]] |}).
Proof.
  apply (commit_carries_recorded_writes env_ok sets_and_resolves 2
           (record_write (WDelete (doc "col/old")) w0)
           [WSet (doc "col/a") (VNumber 1)] (VNumber 7) [Byte.x01]).
  - lia.
  - reflexivity.
  - reflexivity.
  - intros tr. reflexivity.
Defined.

(** ** Recovering after retries *)

Lemma attempt_body_resolves (env : Env) (uf : Z -> Work) (a : Z)
  (lastError : option JsError) (v : JsValue) :
  begin_succeeds env ->
  commit_succeeds env ->
  (forall w, fst (run_work env (uf a) w) = Normal (APromise (Fulfilled v))) ->
  forall w, exists w',
    attempt_body env uf a lastError w = (Done (Resolves v), w')
    /\ extends w w' [KBegin; KCommit] (attempt_calls lastError).
Proof.
  intros HB HC HF w. unfold attempt_body.
  destruct (maybeBackoff_extends lastError w) as (w1 & -> & X1).
  unfold begin.
  destruct (HB (trace (emit (EvBeginTransaction (_transactionId (this w1))
                               (_requestTag (this w1))) w1))) as (t & ->).
  match goal with |- context [try_block env uf a ?w2] =>
    assert (extends w1 w2 [KBegin] [BBegin]) as XB
      by (exists [EvBeginTransaction (_transactionId (this w1)) (_requestTag (this w1))];
          auto);
    set (w2' := w2) in *
  end.
  unfold try_block.
  pose proof (HF (emit (EvUpdateFunction a) w2')) as Fw.
  run_callback env uf a w2' c w3 X'.
  simpl in Fw, X'. subst c.
  pose proof (commit_extends env w3) as XC.
  unfold commit in *. rewrite HC in *. simpl in XC.
  eexists. split; [reflexivity|].
  rewrite <- attempt_calls_split.
  pose proof (extends_trans _ _ _ _ _ _ _ X1 XB) as X2.
  pose proof (extends_trans _ _ _ _ _ _ _ X2 X') as X3.
  pose proof (extends_trans _ _ _ _ _ _ _ X3 XC) as X4.
  simpl in X4. rewrite !app_nil_r in X4. exact X4.
Qed.

Lemma attempts_retry_then_resolve (env : Env) (uf : Z -> Work) (err : Z -> JsError)
  (maxAttempts : Z) (v : JsValue) :
  begin_succeeds env ->
  rollback_succeeds env ->
  commit_succeeds env ->
  forall (n fuel : nat) (attempt : Z) (lastError : option JsError) (w : World),
    (n < fuel)%nat ->
    attempt + Z.of_nat n < maxAttempts ->
    (forall a w, attempt <= a < attempt + Z.of_nat n ->
                 fails_with (fst (run_work env (uf a) w)) (err a)) ->
    (forall a, attempt <= a < attempt + Z.of_nat n ->
               isRetryableTransactionError (err a) = true) ->
    (forall w, fst (run_work env (uf (attempt + Z.of_nat n)) w)
               = Normal (APromise (Fulfilled v))) ->
    exists w' bs,
      attempts fuel env uf maxAttempts attempt lastError w = Some (Resolves v, w')
      /\ extends w w' (cycles n ++ [KBegin; KCommit]) bs.
Proof.
  intros HB HR HC.
  induction n as [|n IH]; intros fuel attempt lastError w Hf Hm HF HRetry HV;
    (destruct fuel as [|fuel]; [lia|]); rewrite attempts_turn by lia.
  - rewrite Z.add_0_r in HV.
    destruct (attempt_body_resolves env uf attempt lastError v HB HC HV w)
      as (w1 & -> & X).
    exists w1, (attempt_calls lastError). auto.
  - destruct (attempt_body_catch env uf attempt lastError (err attempt) (Fulfilled tt) []
                HB (try_block_callback_fails env uf attempt (err attempt)
                      (fun w => HF attempt w ltac:(lia)))
                HR w) as (w1 & -> & X).
    unfold catch_outcome. rewrite HRetry by lia.
    replace (attempt + Z.of_nat (S n)) with (attempt + 1 + Z.of_nat n) in * by lia.
    destruct (IH fuel (attempt + 1) (Some (err attempt)) w1) as (w' & bs & E & X');
      try lia; try assumption.
    + intros a w2 Ha. apply HF. lia.
    + intros a Ha. apply HRetry. lia.
    + exists w', (attempt_calls lastError ++ bs). split; [exact E|].
      apply (extends_trans _ _ _ _ _ _ _ X X').
Qed.

(** X9.  If the callback fails with retryable errors on its first [k]
    invocations and resolves with [v] on the next one, within the budget and
    against a server on which begin, rollback and commit succeed, then
    [runTransaction] resolves with [v] after [k] begin/rollback cycles
    followed by one begin and one commit. *)
Theorem first_success_wins (env : Env) (uf : Z -> Work) (err : Z -> JsError)
  (maxAttempts : Z) (w : World) (k : nat) (v : JsValue) :
  begin_succeeds env ->
  rollback_succeeds env ->
  commit_succeeds env ->
  Z.of_nat k < maxAttempts ->
  (forall a w, 0 <= a < Z.of_nat k -> fails_with (fst (run_work env (uf a) w)) (err a)) ->
  (forall a, 0 <= a < Z.of_nat k -> isRetryableTransactionError (err a) = true) ->
  (forall w, fst (run_work env (uf (Z.of_nat k)) w) = Normal (APromise (Fulfilled v))) ->
  exists w' ext,
    runTransaction env uf maxAttempts w = Some (Resolves v, w')
    /\ trace w' = trace w ++ ext
    /\ rpc_kinds ext = cycles k ++ [KBegin; KCommit].
Proof.
  intros HB HR HC HM HF HRetry HV.
  destruct (attempts_retry_then_resolve env uf err maxAttempts v HB HR HC
              k (S (Z.to_nat maxAttempts)) 0 None w)
    as (w' & bs & E & (ext & T & K & _)); try assumption; try lia.
  exists w', ext. auto.
Qed.

Lemma first_success_wins_witness :
  exists w' ext,
    runTransaction env_ok third_time_lucky 3 w0 = Some (Resolves (VString "ok"), w')
    /\ trace w' = trace w0 ++ ext
    /\ rpc_kinds ext = cycles 2 ++ [KBegin; KCommit].
Proof.
  apply (first_success_wins env_ok third_time_lucky (fun _ => aborted_error) 3 w0
           2%nat (VString "ok")).
  - intros tr. eexists. reflexivity.
  - intros tr. reflexivity.
  - intros tr. reflexivity.
  - lia.
  - intros a w Ha. right. unfold third_time_lucky.
    destruct (Z.ltb_spec a 2); [reflexivity|lia].
  - intros a Ha. reflexivity.
  - intros w. reflexivity.
Defined.

(** ** Parsing the arguments of getAll *)

Lemma validate_each_references (l : list JsValue) :
  forall i,
    forallb instanceof_DocumentReference l = true ->
    validate_each validateDocumentReference i l = Normal tt.
Proof.
  induction l as [|x l IH]; intros i H; simpl in *; [reflexivity|].
  apply andb_prop in H as (Hx & Hl).
  unfold validateDocumentReference at 1. rewrite Hx. apply IH, Hl.
Qed.

Lemma validate_each_accepts (l : list JsValue) :
  forall i u,
    validate_each validateDocumentReference i l = Normal u ->
    forallb instanceof_DocumentReference l = true.
Proof.
  induction l as [|x l IH]; intros i u H; simpl in *; [reflexivity|].
  unfold validateDocumentReference at 1 in H.
  destruct (instanceof_DocumentReference x); [|discriminate].
  simpl. apply (IH _ _ H).
Qed.

Lemma validate_each_first_invalid (refs : list JsValue) (bad : JsValue)
  (rest : list JsValue) :
  forall i,
    forallb instanceof_DocumentReference refs = true ->
    instanceof_DocumentReference bad = false ->
    validate_each validateDocumentReference i (refs ++ bad :: rest)
    = Throw (new_Error (invalidArgumentMessage (ArgIndex (i + List.length refs))
                          "DocumentReference")).
Proof.
  induction refs as [|x refs IH]; intros i H B; simpl in *.
  - unfold validateDocumentReference. rewrite B, Nat.add_0_r. reflexivity.
  - apply andb_prop in H as (Hx & Hl).
    unfold validateDocumentReference at 1. rewrite Hx.
    rewrite (IH (S i) Hl B). rewrite Nat.add_succ_r. reflexivity.
Qed.

Lemma validate_fieldMask_accepts (arg : ArgName) (mask : list JsValue) :
  forall i u,
    validate_fieldMask arg i mask = Normal u ->
    forallb is_field_path_argument mask = true.
Proof.
  induction mask as [|x mask IH]; intros i u H; simpl in *; [reflexivity|].
  destruct x; simpl in *; try discriminate; apply (IH _ _ H).
Qed.

Lemma validate_fieldMask_valid (arg : ArgName) (mask : list JsValue) :
  forall i,
    forallb is_field_path_argument mask = true ->
    validate_fieldMask arg i mask = Normal tt.
Proof.
  induction mask as [|x mask IH]; intros i H; simpl in *; [reflexivity|].
  apply andb_prop in H as (Hx & Hl).
  destruct x; simpl in *; try discriminate; apply IH, Hl.
Qed.

Lemma validate_fieldMask_invalid (arg : ArgName) (mask : list JsValue) :
  forall i,
    forallb is_field_path_argument mask = false ->
    exists e, validate_fieldMask arg i mask = Throw e.
Proof.
  induction mask as [|x mask IH]; intros i H; simpl in *; [discriminate|].
  destruct x; simpl in *; try (eexists; reflexivity); apply IH, H.
Qed.

Lemma first_of_references_is_no_array (refs : list JsValue) (x : JsValue)
  (rest : list JsValue) :
  forallb instanceof_DocumentReference refs = true ->
  (refs <> [] \/ Array_isArray x = false) ->
  Array_isArray (nth 0 (refs ++ x :: rest) VUndefined) = false.
Proof.
  intros H N. destruct refs as [|r refs]; simpl in *.
  - destruct N as [N|N]; [contradiction|exact N].
  - apply andb_prop in H as (Hr & _). destruct r; try discriminate; reflexivity.
Qed.

(** X10.  Whenever [parseGetAllArguments] returns, every document it
    returns is a document reference, and the documents are the arguments in
    their order: all of them, with no field mask, or all but a last plain
    options object, whose [fieldMask] is then either absent (no mask) or an
    array of strings and field paths, converted one by one. *)
Theorem parse_result_shape (args : list JsValue) (p : GetAllArguments) :
  parseGetAllArguments args = Normal p ->
  forallb instanceof_DocumentReference (documents p) = true
  /\ ((args = documents p /\ fieldMask p = None)
      \/ exists options,
           args = documents p ++ [VObject options]
           /\ ((lookup_field "fieldMask" options = VUndefined /\ fieldMask p = None)
               \/ exists mask,
                    lookup_field "fieldMask" options = VArray mask
                    /\ forallb is_field_path_argument mask = true
                    /\ fieldMask p = Some (map FieldPath_fromArgument mask))).
Proof.
  unfold parseGetAllArguments.
  destruct (Array_isArray (nth 0 args VUndefined)); [discriminate|].
  destruct (Nat.ltb 0 (List.length args) && isPlainObject (last args VUndefined))%bool
    eqn:C.
  - apply andb_prop in C as (CL & CP).
    assert (args <> []) as NE by (destruct args; [discriminate|discriminate]).
    pose proof (app_removelast_last VUndefined NE) as A.
    destruct (last args VUndefined) as [| | | | | |options| | | |] eqn:L;
      try discriminate.
    destruct (validate_each validateDocumentReference 0 (removelast args)) as [u|e] eqn:V;
      [|discriminate].
    apply validate_each_accepts in V.
    unfold validateReadOptions. simpl.
    destruct (lookup_field "fieldMask" options) as [| | | |?|mask| | | | |] eqn:F;
      simpl; try discriminate.
    + intros [= <-]. simpl. split; [exact V|]. right. exists options.
      split; [exact A|]. left. auto.
    + destruct (validate_fieldMask (ArgNamed "options") 0 mask) as [u'|e] eqn:VM;
        [|discriminate].
      apply validate_fieldMask_accepts in VM.
      intros [= <-]. simpl. split; [exact V|]. right. exists options.
      split; [exact A|]. right. exists mask. auto.
  - destruct (validate_each validateDocumentReference 0 args) as [u|e] eqn:V;
      [|discriminate].
    apply validate_each_accepts in V. simpl.
    intros [= <-]. simpl. auto.
Qed.

Lemma parse_result_shape_witness :
  forallb instanceof_DocumentReference
    (documents {| documents := [doc "col/a"]; fieldMask := Some [FieldPath_ ["x"]] |})
  = true
  /\ (([doc "col/a"; VObject [("fieldMask", VArray [VString "x"])]]
       = documents {| documents := [doc "col/a"]; fieldMask := Some [FieldPath_ ["x"]] |}
       /\ fieldMask {| documents := [doc "col/a"]; fieldMask := Some [FieldPath_ ["x"]] |}
          = None)
      \/ exists options,
           [doc "col/a"; VObject [("fieldMask", VArray [VString "x"])]]
           = documents {| documents := [doc "col/a"];
                          fieldMask := Some [FieldPath_ ["x"]] |} ++ [VObject options]
           /\ ((lookup_field "fieldMask" options = VUndefined
                /\ fieldMask {| documents := [doc "col/a"];
                                fieldMask := Some [FieldPath_ ["x"]] |} = None)
               \/ exists mask,
                    lookup_field "fieldMask" options = VArray mask
                    /\ forallb is_field_path_argument mask = true
                    /\ fieldMask {| documents := [doc "col/a"];
                                    fieldMask := Some [FieldPath_ ["x"]] |}
                       = Some (map FieldPath_fromArgument mask))).
Proof.
  apply (parse_result_shape
           [doc "col/a"; VObject [("fieldMask", VArray [VString "x"])]]
           {| documents := [doc "col/a"]; fieldMask := Some [FieldPath_ ["x"]] |}).
  reflexivity.
Defined.

(** X11.  The first argument that is not a document reference makes
    [parseGetAllArguments] throw, under the message of its position, unless
    it is a plain object in the last place (the read options) or an array in
    the first place (which has an error of its own).  In particular a read
    options object followed by anything is rejected. *)
Theorem parse_rejects_first_non_reference (refs : list JsValue) (bad : JsValue)
  (rest : list JsValue) :
  forallb instanceof_DocumentReference refs = true ->
  instanceof_DocumentReference bad = false ->
  (refs <> [] \/ Array_isArray bad = false) ->
  (rest <> [] \/ isPlainObject bad = false) ->
  parseGetAllArguments (refs ++ bad :: rest)
  = Throw (new_Error (invalidArgumentMessage (ArgIndex (List.length refs))
                        "DocumentReference")).
Proof.
  intros HR HB HA HL. unfold parseGetAllArguments.
  rewrite (first_of_references_is_no_array refs bad rest HR HA).
  assert (exists rest',
             (if (Nat.ltb 0 (List.length (refs ++ bad :: rest))
                  && isPlainObject (last (refs ++ bad :: rest) VUndefined))%bool
              then (removelast (refs ++ bad :: rest),
                    last (refs ++ bad :: rest) VUndefined)
              else (refs ++ bad :: rest, VUndefined))
             = (refs ++ bad :: rest',
                if (Nat.ltb 0 (List.length (refs ++ bad :: rest))
                    && isPlainObject (last (refs ++ bad :: rest) VUndefined))%bool
                then last (refs ++ bad :: rest) VUndefined else VUndefined))
    as (rest' & ->).
  { destruct (Nat.ltb 0 (List.length (refs ++ bad :: rest))
              && isPlainObject (last (refs ++ bad :: rest) VUndefined))%bool eqn:C.
    - destruct rest as [|r rest].
      + apply andb_prop in C as (_ & C). rewrite last_last in C.
        destruct HL as [HL|HL]; [contradiction|congruence].
      + exists (removelast (r :: rest)).
        rewrite removelast_app by discriminate. reflexivity.
    - exists rest. reflexivity. }
  rewrite (validate_each_first_invalid refs bad rest' 0 HR HB). reflexivity.
Qed.

Lemma parse_rejects_first_non_reference_witness :
  parseGetAllArguments
    ([doc "col/a"] ++ VObject [("fieldMask", VArray [VString "x"])] :: [doc "col/b"])
  = Throw (new_Error (invalidArgumentMessage (ArgIndex (List.length [doc "col/a"]))
                        "DocumentReference")).
Proof.
  apply (parse_rejects_first_non_reference [doc "col/a"]
           (VObject [("fieldMask", VArray [VString "x"])]) [doc "col/b"]).
  - reflexivity.
  - reflexivity.
  - left. discriminate.
  - left. discriminate.
Defined.

Lemma parse_references_and_options (refs : list JsValue)
  (options : list (string * JsValue)) :
  forallb instanceof_DocumentReference refs = true ->
  parseGetAllArguments (refs ++ [VObject options])
  = match validateReadOptions (ArgNamed "options") (VObject options) true with
    | Throw e => Throw e
    | Normal _ =>
        Normal {| documents := refs;
                  fieldMask :=
                    if truthy (lookup_field "fieldMask" options) then
                      match lookup_field "fieldMask" options with
                      | VArray mask => Some (map FieldPath_fromArgument mask)
                      | _ => None
                      end
                    else None |}
    end.
Proof.
  intros HR. unfold parseGetAllArguments.
  rewrite (first_of_references_is_no_array refs (VObject options) [] HR)
    by (right; reflexivity).
  rewrite last_last, removelast_last, length_app. simpl.
  replace (Nat.ltb 0 (List.length refs + 1)) with true
    by (symmetry; apply Nat.ltb_lt; lia).
  simpl. rewrite (validate_each_references refs 0 HR). reflexivity.
Qed.

(** X12.  References followed by a read options object whose [fieldMask] is
    absent or an array of strings and field paths parse into these
    references, in their order, and the mask converted entry by entry (no
    mask when [fieldMask] is absent). *)
Theorem parse_with_read_options (refs : list JsValue)
  (options : list (string * JsValue)) :
  forallb instanceof_DocumentReference refs = true ->
  match lookup_field "fieldMask" options with
  | VUndefined => True
  | VArray mask => forallb is_field_path_argument mask = true
  | _ => False
  end ->
  parseGetAllArguments (refs ++ [VObject options])
  = Normal {| documents := refs;
              fieldMask :=
                match lookup_field "fieldMask" options with
                | VArray mask => Some (map FieldPath_fromArgument mask)
                | _ => None
                end |}.
Proof.
  intros HR HM. rewrite (parse_references_and_options refs options HR).
  unfold validateReadOptions. simpl.
  destruct (lookup_field "fieldMask" options) as [| | | |?|mask| | | | |];
    try contradiction; [reflexivity|].
  rewrite (validate_fieldMask_valid _ mask 0 HM). reflexivity.
Qed.

Lemma parse_with_read_options_witness :
  parseGetAllArguments
    ([doc "col/a"; doc "col/b"]
       ++ [VObject [("fieldMask", VArray [VString "x"; VFieldPath (FieldPath_ ["y"; "z"])])]])
  = Normal {| documents := [doc "col/a"; doc "col/b"];
              fieldMask :=
                match lookup_field "fieldMask"
                        [("fieldMask",
                          VArray [VString "x"; VFieldPath (FieldPath_ ["y"; "z"])])] with
                | VArray mask => Some (map FieldPath_fromArgument mask)
                | _ => None
                end |}.
Proof.
  apply (parse_with_read_options [doc "col/a"; doc "col/b"]
           [("fieldMask", VArray [VString "x"; VFieldPath (FieldPath_ ["y"; "z"])])]).
  - reflexivity.
  - reflexivity.
Defined.

(** X13.  Read options whose [fieldMask] is present but is not an array
    ([null] included), or is an array with an entry that is neither a string
    nor a field path, make [parseGetAllArguments] throw, however good the
    references before them are. *)
Theorem parse_rejects_bad_field_mask (refs : list JsValue)
  (options : list (string * JsValue)) :
  forallb instanceof_DocumentReference refs = true ->
  match lookup_field "fieldMask" options with
  | VUndefined => False
  | VArray mask => forallb is_field_path_argument mask = false
  | _ => True
  end ->
  exists e, parseGetAllArguments (refs ++ [VObject options]) = Throw e.
Proof.
  intros HR HM. rewrite (parse_references_and_options refs options HR).
  unfold validateReadOptions. simpl.
  destruct (lookup_field "fieldMask" options) as [| | | |?|mask| | | | |];
    try contradiction; try (eexists; reflexivity).
  destruct (validate_fieldMask_invalid (ArgNamed "options") mask 0 HM) as (e & ->).
  exists e. reflexivity.
Qed.

Lemma parse_rejects_bad_field_mask_witness :
  exists e,
    parseGetAllArguments ([doc "col/a"] ++ [VObject [("fieldMask", VNull)]]) = Throw e.
Proof.
  apply (parse_rejects_bad_field_mask [doc "col/a"] [("fieldMask", VNull)]).
  - reflexivity.
  - exact I.
Defined.

(** ** When reads go through *)

(** X14.  [get] throws exactly when a write is pending or its argument is
    neither a document reference nor a query. *)
Theorem get_throws_iff (env : Env) (refOrQuery : JsValue) (w : World) :
  (exists e, fst (get env refOrQuery w) = Throw e)
  <-> (isEmpty (this w) = false
       \/ (instanceof_DocumentReference refOrQuery = false
           /\ instanceof_Query refOrQuery = false)).
Proof.
  unfold get.
  destruct (isEmpty (this w)); simpl.
  - destruct (instanceof_DocumentReference refOrQuery); simpl.
    + split; [intros (e & H); discriminate|intros [H|(H & _)]; discriminate].
    + destruct (instanceof_Query refOrQuery); simpl.
      * split; [intros (e & H); discriminate|intros [H|(_ & H)]; discriminate].
      * split; [auto|]. intros _. eexists. reflexivity.
  - split; [auto|]. intros _. eexists. reflexivity.
Qed.

(** X15.  With no write pending, [getAll] called with one or more document
    references and nothing else issues one batched read for exactly these
    references, in the order given, with no field mask, under the tag and
    the handle of the transaction, and hands back the promise of that
    read. *)
Theorem getAll_references (env : Env) (refs : list JsValue) (w : World) :
  isEmpty (this w) = true ->
  refs <> [] ->
  forallb instanceof_DocumentReference refs = true ->
  getAll env refs w =
    (Normal (firestore_getAll_ env
               (trace w ++ [EvGetAll_ refs None (_requestTag (this w))
                              (_transactionId (this w))])),
     emit (EvGetAll_ refs None (_requestTag (this w)) (_transactionId (this w))) w).
Proof.
  intros HE HN HR. unfold getAll. rewrite HE. simpl.
  destruct refs as [|r refs]; [contradiction|].
  unfold validateMinNumberOfArguments. simpl.
  unfold parseGetAllArguments.
  assert (Array_isArray (nth 0 (r :: refs) VUndefined) = false) as ->.
  { simpl in *. apply andb_prop in HR as (Hr & _).
    destruct r; try discriminate; reflexivity. }
  assert (isPlainObject (last (r :: refs) VUndefined) = false) as HL.
  { assert (instanceof_DocumentReference (last (r :: refs) VUndefined) = true) as D.
    { pose proof (proj1 (forallb_forall _ _) HR (last (r :: refs) VUndefined)) as F.
      apply F. rewrite (app_removelast_last VUndefined (l := r :: refs)) at 2
        by discriminate.
      apply in_or_app. right. left. reflexivity. }
    destruct (last (r :: refs) VUndefined); try discriminate; reflexivity. }
  rewrite HL, andb_false_r.
  rewrite (validate_each_references (r :: refs) 0 HR). reflexivity.
Qed.

Lemma getAll_references_witness :
  getAll env_ok [doc "col/a"; doc "col/b"] w0 =
    (Normal (firestore_getAll_ env_ok
               (trace w0 ++ [EvGetAll_ [doc "col/a"; doc "col/b"] None
                               (_requestTag (this w0)) (_transactionId (this w0))])),
     emit (EvGetAll_ [doc "col/a"; doc "col/b"] None (_requestTag (this w0))
             (_transactionId (this w0))) w0).
Proof.
  apply (getAll_references env_ok [doc "col/a"; doc "col/b"] w0).
  - reflexivity.
  - discriminate.
  - reflexivity.
Defined.

(** ** Writes of a failed attempt *)

Lemma attempt_commits_own_writes (env : Env) (uf : Z -> Work) (a : Z)
  (ops : list WriteOp) (v : JsValue) :
  begin_succeeds env ->
  commit_succeeds env ->
  uf a = writes_then ops (APromise (Fulfilled v)) ->
  forall (lastError : option JsError) (w : World),
  exists transaction w' mid,
    attempt_body env uf a lastError w = (Done (Resolves v), w')
    /\ trace w' = trace w ++ mid
                    ++ [EvCommit (Some transaction) (_requestTag (this w)) ops]
    /\ rpc_kinds mid = [KBegin]
    /\ _ops (this w') = ops.
Proof.
  intros HB HC HU lastError w. unfold attempt_body.
  destruct (maybeBackoff_extends lastError w) as (w1 & E1 & (e1 & T1 & K1 & _)).
  assert (_requestTag (this w1) = _requestTag (this w) /\ _ops (this w1) = [])
    as (G1 & O1).
  { unfold maybeBackoff in E1. injection E1 as <-.
    destruct lastError as [e|]; [destruct (code_is _ e)|]; auto. }
  rewrite E1. unfold begin.
  destruct (HB (trace (emit (EvBeginTransaction (_transactionId (this w1))
                               (_requestTag (this w1))) w1))) as (t & ->).
  unfold try_block. rewrite HU, run_work_writes_then. simpl.
  unfold commit. simpl. rewrite HC.
  exists t. eexists.
  exists (e1 ++ [EvBeginTransaction (_transactionId (this w1)) (_requestTag (this w1));
                 EvUpdateFunction a]).
  split; [reflexivity|]. simpl. rewrite T1, G1, O1.
  split; [rewrite <- !app_assoc; reflexivity|].
  split; [rewrite rpc_kinds_app, K1; reflexivity|reflexivity].
Qed.

(** X16.  Writes recorded by an attempt that failed are discarded: when the
    first attempt records [first] and fails with a retryable error and the
    second records [second] and resolves, the one commit of the run carries
    [second] only, and it comes after one begin/rollback cycle and the second
    begin. *)
Theorem failed_attempt_writes_discarded (env : Env) (uf : Z -> Work)
  (maxAttempts : Z) (w : World) (first second : list WriteOp)
  (e : JsError) (v : JsValue) :
  2 <= maxAttempts ->
  begin_succeeds env ->
  rollback_succeeds env ->
  commit_succeeds env ->
  uf 0 = writes_then first (APromise (Rejected e)) ->
  isRetryableTransactionError e = true ->
  uf 1 = writes_then second (APromise (Fulfilled v)) ->
  exists transaction w' pre,
    runTransaction env uf maxAttempts w = Some (Resolves v, w')
    /\ trace w' = trace w ++ pre
                    ++ [EvCommit (Some transaction) (_requestTag (this w)) second]
    /\ rpc_kinds pre = [KBegin; KRollback; KBegin]
    /\ _ops (this w') = second.
Proof.
  intros HM HB HR HC H0 HE H1.
  assert (forall w, fails_with (fst (run_work env (uf 0) w)) e) as HF.
  { intros w2. rewrite H0, run_work_writes_then. right. reflexivity. }
  destruct (attempt_body_catch env uf 0 None e (Fulfilled tt) [] HB
              (try_block_callback_fails env uf 0 e HF) HR w)
    as (w1 & E1 & (ext1 & T1 & K1 & _)).
  pose proof (attempt_body_session_step env uf 0 None w) as (G1 & _).
  rewrite E1 in G1. simpl in G1.
  unfold catch_outcome in E1. rewrite HE in E1.
  destruct (attempt_commits_own_writes env uf 1 second v HB HC H1 (Some e) w1)
    as (t & w' & mid & E2 & T2 & K2 & O2).
  exists t, w', (ext1 ++ mid).
  split; [|split; [|split]].
  - unfold runTransaction.
    replace (S (Z.to_nat maxAttempts)) with (S (S (Z.to_nat (maxAttempts - 1)))) by lia.
    rewrite attempts_turn by lia. rewrite E1.
    rewrite attempts_turn by lia. simpl. rewrite E2. reflexivity.
  - rewrite T2, T1, G1, <- !app_assoc. reflexivity.
  - rewrite rpc_kinds_app, K1, K2. reflexivity.
  - exact O2.
Qed.

Lemma failed_attempt_writes_discarded_witness :
  exists transaction w' pre,
    runTransaction env_ok
      (fun attempt =>
         if attempt =? 0
         then writes_then [WDelete (doc "col/a")] (APromise (Rejected aborted_error))
         else writes_then [WSet (doc "col/b") (VNumber 2)]
                (APromise (Fulfilled (VString "ok"))))
      2 w0 = Some (Resolves (VString "ok"), w')
    /\ trace w' = trace w0 ++ pre
                    ++ [EvCommit (Some transaction) (_requestTag (this w0))
                          [WSet (doc "col/b") (VNumber 2)]]
    /\ rpc_kinds pre = [KBegin; KRollback; KBegin]
    /\ _ops (this w') = [WSet (doc "col/b") (VNumber 2)].
Proof.
  apply (failed_attempt_writes_discarded env_ok
           (fun attempt =>
              if attempt =? 0
              then writes_then [WDelete (doc "col/a")] (APromise (Rejected aborted_error))
              else writes_then [WSet (doc "col/b") (VNumber 2)]
                     (APromise (Fulfilled (VString "ok"))))
           2 w0 [WDelete (doc "col/a")] [WSet (doc "col/b") (VNumber 2)]
           aborted_error (VString "ok")).
  - lia.
  - intros tr. eexists. reflexivity.
  - intros tr. reflexivity.
  - intros tr. reflexivity.
  - reflexivity.
  - reflexivity.
  - reflexivity.
Defined.
